(** * AndomaV2: the move search of [movegen.py]

    A shallow embedding of [src/src/movegen.py]: the material score, the
    move orderer, the recursive alpha-beta search [minimax], the root driver
    [minimax_root] and [next_move], followed by the properties of the
    specification that concern them.

    The chess library ([chess.Board]) and the module [eval] are not part of
    the file: they are taken as records of operations.  The board is the one
    mutable object of the search, so the code is written in a state monad
    over the board and the module-level dictionary [debug_info]; an exception
    leaves the state as it was when it was raised. *)

From Stdlib Require Import ZArith List Bool Lia.
From stdpp Require Import base option list gmap strings.
Import ListNotations.
Local Open Scope Z_scope.
Set Warnings "-register-all".

(** ** Scores

    A score is a Python number: an [int] of the evaluator, or one of the
    floats [-inf] and [inf] the search starts its running best from. *)

Inductive score : Type :=
| NegInf
| Finite (z : Z)
| PosInf.

Definition score_leb (a b : score) : bool :=
  match a, b with
  | NegInf, _ => true
  | _, PosInf => true
  | Finite x, Finite y => x <=? y
  | _, _ => false
  end.

Definition score_ltb (a b : score) : bool := negb (score_leb b a).

Definition score_le (a b : score) : Prop := score_leb a b = true.
Definition score_lt (a b : score) : Prop := score_ltb a b = true.

(** [at_most maximize w v]: the side that chooses does not prefer [w] to
    [v]; [below maximize w v]: it strictly prefers [v]. *)
Definition at_most (maximize : bool) (w v : score) : Prop :=
  if maximize then score_le w v else score_le v w.

Definition below (maximize : bool) (w v : score) : Prop :=
  if maximize then score_lt w v else score_lt v w.

(** [max(a, b)] and [min(a, b)] of Python: the first argument unless the
    second is strictly beyond it. *)
Definition py_max (a b : score) : score := if score_ltb a b then b else a.
Definition py_min (a b : score) : score := if score_ltb b a then b else a.

(** [x - 1] and [x + 1]; an infinite float absorbs the step. *)
Definition score_pred (a : score) : score :=
  match a with Finite z => Finite (z - 1) | _ => a end.
Definition score_succ (a : score) : score :=
  match a with Finite z => Finite (z + 1) | _ => a end.

Definition MATE_SCORE : Z := 1000000000.
Definition MATE_THRESHOLD : Z := 999000000.

(** Lines 190-193 and 209-212: the step applied to [curr_move]. *)
Definition mate_adjust (curr_move : score) : score :=
  if score_ltb (Finite MATE_THRESHOLD) curr_move then score_pred curr_move
  else if score_ltb curr_move (Finite (- MATE_THRESHOLD)) then score_succ curr_move
  else curr_move.

(** The same step in the words of the specification: a score whose magnitude
    exceeds the threshold moves one unit toward zero. *)
Definition toward_zero (z : Z) : Z :=
  if MATE_THRESHOLD <? Z.abs z then z - Z.sgn z else z.

(** ** Exceptions, results and the state monad *)

Inductive exn : Type :=
| TypeError
| KeyError
| IndexError
| AttributeError
| External (code : nat).   (* raised by the chess library or by [eval] *)

(** The result of a call that does not touch the state. *)
Inductive result (A : Type) : Type :=
| Ok (a : A)
| Err (e : exn).
Arguments Ok {A} a.
Arguments Err {A} e.

Definition result_bind {A B} (r : result A) (k : A -> result B) : result B :=
  match r with Ok a => k a | Err e => Err e end.

(** The outcome of a call that runs on the state; [OutOfFuel] is the model's
    recursion budget running out, not a behaviour of the program. *)
Inductive outcome (A : Type) : Type :=
| Return (a : A)
| Raise (e : exn)
| OutOfFuel.
Arguments Return {A} a.
Arguments Raise {A} e.
Arguments OutOfFuel {A}.

Definition piece_square : Type := nat.

Inductive color : Type := WHITE | BLACK.

Definition opposite (c : color) : color :=
  match c with WHITE => BLACK | BLACK => WHITE end.

Definition color_eqb (a b : color) : bool :=
  match a, b with
  | WHITE, WHITE | BLACK, BLACK => true
  | _, _ => false
  end.

Inductive piece_type : Type := PAWN | KNIGHT | BISHOP | ROOK | QUEEN | KING.

(** ** The Board Model

    What the search asks of [chess.Board].  [push] and [pop] act on the one
    board of the search; [pop_push] is the stack discipline the library
    provides (undoing the last move gives the position back). *)
Record BoardModel : Type := {
  Board : Type;
  Move : Type;
  turn : Board -> color;
  legal_moves : Board -> list Move;
  push : Move -> Board -> Board;
  pop : Board -> Board;
  is_checkmate : Board -> bool;
  is_game_over : Board -> bool;
  can_claim_draw : Board -> bool;
  is_stalemate : Board -> bool;
  is_insufficient_material : Board -> bool;
  is_seventyfive_moves : Board -> bool;
  is_fivefold_repetition : Board -> bool;
  pieces : Board -> color -> piece_type -> list piece_square;
  pop_push : forall m b, pop (push m b) = b
}.

(** ** The module [eval]: [evaluate_board], [move_value], [check_end_game] *)
Record Evaluator (BM : BoardModel) : Type := {
  evaluate_board : Board BM -> result Z;
  move_value : Board BM -> Move BM -> bool -> Z -> Z -> Z -> Z -> Z -> result Z;
  check_end_game : Board BM -> result bool
}.
Arguments evaluate_board {BM} _ _.
Arguments move_value {BM} _ _ _ _ _ _ _ _ _.
Arguments check_end_game {BM} _ _.

(** ** The state: the board and [debug_info]

    [debug_info] is the module-level dictionary; the search only uses its
    entry ["nodes"] (the entry ["time"] is a wall-clock float and is left
    out). *)
Record state (BM : BoardModel) : Type := mkState {
  board : Board BM;
  debug_info : gmap string Z
}.
Arguments mkState {BM} _ _.
Arguments board {BM} _.
Arguments debug_info {BM} _.

Definition M (BM : BoardModel) (A : Type) : Type :=
  state BM -> outcome A * state BM.

Definition ret {BM A} (a : A) : M BM A := fun s => (Return a, s).

Definition raise {BM A} (e : exn) : M BM A := fun s => (Raise e, s).

Definition bind {BM A B} (m : M BM A) (k : A -> M BM B) : M BM B :=
  fun s =>
    match m s with
    | (Return a, s') => k a s'
    | (Raise e, s') => (Raise e, s')
    | (OutOfFuel, s') => (OutOfFuel, s')
    end.

Declare Scope search_scope.
Delimit Scope search_scope with search.
Notation "x <- m ;; k" := (bind m (fun x => k))
  (at level 100, m at next level, right associativity) : search_scope.
Notation "m ;;; k" := (bind m (fun _ => k))
  (at level 100, right associativity) : search_scope.
Local Open Scope search_scope.

Definition lift {BM A} (r : result A) : M BM A :=
  match r with Ok a => ret a | Err e => raise e end.

Definition get_board {BM} : M BM (Board BM) := fun s => (Return (board s), s).

(** [board.push(move)] and [board.pop()] *)
Definition board_push {BM} (move : Move BM) : M BM unit :=
  fun s => (Return tt, mkState (push BM move (board s)) (debug_info s)).

Definition board_pop {BM} : M BM unit :=
  fun s => (Return tt, mkState (pop BM (board s)) (debug_info s)).

(** [debug_info["nodes"] += 1]: a [KeyError] when the entry is missing. *)
Definition count_node {BM} : M BM unit :=
  fun s =>
    match debug_info s !! "nodes"%string with
    | Some n => (Return tt, mkState (board s) (<["nodes"%string := n + 1]> (debug_info s)))
    | None => (Raise KeyError, s)
    end.

(** [debug_info.clear(); debug_info["nodes"] = 0] *)
Definition reset_debug_info {BM} : M BM unit :=
  fun s => (Return tt, mkState (board s) (<["nodes"%string := 0]> ∅)).

(** The state after [debug_info["nodes"] += 1], after [board.push(move)] and
    after [board.pop()]. *)
Definition counted {BM} (s : state BM) (n : Z) : state BM :=
  mkState (board s) (<["nodes"%string := n + 1]> (debug_info s)).

Definition pushed {BM} (move : Move BM) (s : state BM) : state BM :=
  mkState (push BM move (board s)) (debug_info s).

Definition popped {BM} (s : state BM) : state BM :=
  mkState (pop BM (board s)) (debug_info s).

(** The entry ["nodes"] is in [debug_info]. *)
Definition has_counter {BM} (s : state BM) : Prop :=
  is_Some (debug_info s !! "nodes"%string).

(** ** The chess library: [chess.Color]

    [chess.Color] is the type [bool]: it has no attribute [opposite], so the
    expression [chess.Color.opposite(color)] raises [AttributeError] when the
    attribute is looked up, whatever the colour; the call is not made. *)
Definition Color_opposite (c : color) : result color := Err AttributeError.

(** A [for] loop over a list, on an accumulator, whose body may raise. *)
Fixpoint for_each {A B} (body : B -> A -> result B) (l : list A) (acc : B)
  : result B :=
  match l with
  | [] => Ok acc
  | x :: l' => result_bind (body acc x) (for_each body l')
  end.

(** ** The material score (lines 9-16 and 99-116) *)

Definition piece_value (piece : piece_type) : Z :=
  match piece with
  | PAWN => 100
  | ROOK => 500
  | KNIGHT => 320
  | BISHOP => 330
  | QUEEN => 900
  | KING => 20000
  end.

Definition len {A} (l : list A) : Z := Z.of_nat (length l).

Section BoardScore.
Variable BM : BoardModel.

(** The right-hand side of line 103, its operands evaluated from left to
    right: the value, the count of the colour's pieces, then the lookup of
    [chess.Color.opposite]. *)
Definition material_term (b : Board BM) (piece : piece_type) (c : color)
  : result Z :=
  let value := piece_value piece in
  let own := len (pieces BM b c piece) in
  result_bind (Color_opposite c) (fun other =>
  Ok (value * (own - len (pieces BM b other piece)))).

(** The two nested [for] loops of lines 101-103, run on the accumulator. *)
Definition material_loops (b : Board BM) : result Z :=
  for_each
    (fun score piece =>
       for_each
         (fun score c =>
            result_bind (material_term b piece c) (fun term => Ok (score + term)))
         [WHITE; BLACK] score)
    [PAWN; ROOK; KNIGHT; BISHOP; QUEEN] 0.

(** Lines 99-116. *)
Definition evaluate_board_score (b : Board BM) : result Z :=
  result_bind (material_loops b) (fun score =>
  Ok (if is_checkmate BM b then
        score + (if color_eqb (turn BM b) WHITE then MATE_SCORE else - MATE_SCORE)
      else if is_stalemate BM b then 0
      else if is_insufficient_material BM b then 0
      else if is_seventyfive_moves BM b then 0
      else if is_fivefold_repetition BM b then 0
      else score)).

(** The material score in the words of the specification: for one side,
    the sum over the piece types other than the king of the value times
    the difference of the counts. *)
Definition material_balance (side : color) (b : Board BM) : Z :=
  fold_right
    (fun piece acc =>
       piece_value piece *
         (len (pieces BM b side piece) - len (pieces BM b (opposite side) piece))
       + acc)
    0 [PAWN; ROOK; KNIGHT; BISHOP; QUEEN].
End BoardScore.

(** ** Feature extractors and the move orderer (lines 38-97)

    A function defined by [def f(p1, ..., pn)] is called with positional
    arguments; a call with another number of arguments raises [TypeError]
    before the body runs. *)

Inductive value (BM : BoardModel) : Type :=
| VBoard (b : Board BM)
| VColor (c : color)
| VPiece (p : piece_type).
Arguments VBoard {BM} b.
Arguments VColor {BM} c.
Arguments VPiece {BM} p.

Record pyfunction (BM : BoardModel) (A : Type) : Type := {
  parameters : list string;
  body : list (value BM) -> result A
}.
Arguments parameters {BM A} _.
Arguments body {BM A} _ _.

Definition call {BM A} (f : pyfunction BM A) (args : list (value BM)) : result A :=
  if Nat.eqb (length args) (length (parameters f)) then body f args
  else Err TypeError.

(** The bodies of the four extractors run on primitives of the chess library
    (piece sets, copies of the board, square arithmetic); they are taken as
    they are, as functions of the board and the colour. *)
Record Features (BM : BoardModel) : Type := {
  mobility_body : Board BM -> color -> result Z;
  threats_body : Board BM -> color -> result Z;
  open_lines_body : Board BM -> color -> result Z;
  pawn_structure_body : Board BM -> color -> result Z
}.
Arguments mobility_body {BM} _ _ _.
Arguments threats_body {BM} _ _ _.
Arguments open_lines_body {BM} _ _ _.
Arguments pawn_structure_body {BM} _ _ _.

Definition MOBILITY_FACTOR : Z := 10.
Definition THREATS_FACTOR : Z := 20.
Definition OPEN_LINES_FACTOR : Z := 15.
Definition PAWN_STRUCTURE_FACTOR : Z := 5.

Section Orderer.
Variable BM : BoardModel.
Variable EV : Evaluator BM.
Variable FT : Features BM.

(** [def f(board: chess.Board, color: chess.Color) -> int] *)
Definition board_color_function (f : Board BM -> color -> result Z)
  : pyfunction BM Z :=
  {| parameters := ["board"%string; "color"%string];
     body := fun args =>
               match args with
               | [VBoard b; VColor c] => f b c
               | _ => Err TypeError
               end |}.

Definition evaluate_mobility := board_color_function (mobility_body FT).
Definition evaluate_threats := board_color_function (threats_body FT).
Definition evaluate_open_lines := board_color_function (open_lines_body FT).
Definition evaluate_pawn_structure := board_color_function (pawn_structure_body FT).

(** [sorted(iterable, key=..., reverse=...)]: the keys are computed first,
    in order; the sort is stable, also when reversed. *)
Fixpoint with_keys (key : Move BM -> result Z) (l : list (Move BM))
  : result (list (Z * Move BM)) :=
  match l with
  | [] => Ok []
  | x :: l' =>
      result_bind (key x) (fun k =>
      result_bind (with_keys key l') (fun rest => Ok ((k, x) :: rest)))
  end.

Fixpoint insert_keyed (reverse : bool) (x : Z * Move BM)
    (acc : list (Z * Move BM)) : list (Z * Move BM) :=
  match acc with
  | [] => [x]
  | y :: acc' =>
      if (if reverse then x.1 <=? y.1 else y.1 <=? x.1)
      then y :: insert_keyed reverse x acc'
      else x :: acc
  end.

Definition sorted (l : list (Move BM)) (key : Move BM -> result Z)
    (reverse : bool) : result (list (Move BM)) :=
  result_bind (with_keys key l) (fun keyed =>
    Ok (map snd (fold_left (fun acc x => insert_keyed reverse x acc) keyed []))).

(** Lines 38-53.  The four extractors are called with the board alone. *)
Definition get_ordered_moves (b : Board BM) : result (list (Move BM)) :=
  result_bind (evaluate_board_score BM b) (fun boardscore =>
  result_bind (call evaluate_pawn_structure [VBoard b]) (fun pawnstruct =>
  result_bind (call evaluate_open_lines [VBoard b]) (fun open_line =>
  result_bind (call evaluate_threats [VBoard b]) (fun threats =>
  result_bind (call evaluate_mobility [VBoard b]) (fun mobility =>
  result_bind (check_end_game EV b) (fun end_game =>
  let orderer move :=
    move_value EV b move end_game mobility threats open_line pawnstruct boardscore in
  sorted (legal_moves BM b) orderer (color_eqb (turn BM b) WHITE))))))).

(** Lines 124-132: here the colour is passed; the operands of the sum are
    evaluated from left to right. *)
Definition evaluate_position (b : Board BM) : result Z :=
  let c := turn BM b in
  result_bind (evaluate_board_score BM b) (fun board_score =>
  result_bind (call evaluate_mobility [VBoard b; VColor c]) (fun mobility =>
  result_bind (call evaluate_threats [VBoard b; VColor c]) (fun threats =>
  result_bind (call evaluate_open_lines [VBoard b; VColor c]) (fun open_lines =>
  result_bind (call evaluate_pawn_structure [VBoard b; VColor c]) (fun pawn_structure =>
  Ok (board_score
      + MOBILITY_FACTOR * mobility
      - THREATS_FACTOR * threats
      + OPEN_LINES_FACTOR * open_lines
      + PAWN_STRUCTURE_FACTOR * pawn_structure)))))).
End Orderer.

(** ** The search (lines 135-221)

    The search is written over the list the Move Orderer returns for a
    position, [ordered]: the specification gives the orderer as a component
    of its own, and the source's [get_ordered_moves] above is one instance.
    [fuel] bounds the nesting of recursive calls; [depth] is the Python
    integer, tested with [depth == 0] only. *)

Section Search.
Variable BM : BoardModel.
Variable EV : Evaluator BM.
Variable ordered : Board BM -> result (list (Move BM)).

(** Lines 186-202: the loop of the maximising branch.  [recurse alpha beta]
    is the recursive call of line 188 with the current bounds. *)
Fixpoint maximise (recurse : score -> score -> M BM score)
    (moves : list (Move BM)) (best_move alpha beta : score) : M BM score :=
  match moves with
  | [] => ret best_move
  | move :: rest =>
      board_push move ;;;
      curr_move <- recurse alpha beta ;;
      let curr_move := mate_adjust curr_move in
      let best_move := py_max best_move curr_move in
      board_pop ;;;
      let alpha := py_max alpha best_move in
      if score_leb beta alpha then ret best_move
      else maximise recurse rest best_move alpha beta
  end.

(** Lines 206-221: the loop of the minimising branch. *)
Fixpoint minimise (recurse : score -> score -> M BM score)
    (moves : list (Move BM)) (best_move alpha beta : score) : M BM score :=
  match moves with
  | [] => ret best_move
  | move :: rest =>
      board_push move ;;;
      curr_move <- recurse alpha beta ;;
      let curr_move := mate_adjust curr_move in
      let best_move := py_min best_move curr_move in
      board_pop ;;;
      let beta := py_min beta best_move in
      if score_leb beta alpha then ret best_move
      else minimise recurse rest best_move alpha beta
  end.

(** Lines 163-221. *)
Fixpoint minimax (fuel : nat) (depth : Z) (alpha beta : score)
    (is_maximising_player : bool) {struct fuel} : M BM score :=
  match fuel with
  | O => fun s => (OutOfFuel, s)
  | S fuel' =>
      count_node ;;;
      b <- get_board ;;
      if is_checkmate BM b then
        ret (Finite (if is_maximising_player then - MATE_SCORE else MATE_SCORE))
      else if is_game_over BM b then ret (Finite 0)
      else if depth =? 0 then
        v <- lift (evaluate_board EV b) ;; ret (Finite v)
      else if is_maximising_player then
        moves <- lift (ordered b) ;;
        maximise
          (fun alpha beta =>
             minimax fuel' (depth - 1) alpha beta (negb is_maximising_player))
          moves NegInf alpha beta
      else
        moves <- lift (ordered b) ;;
        minimise
          (fun alpha beta =>
             minimax fuel' (depth - 1) alpha beta (negb is_maximising_player))
          moves PosInf alpha beta
  end.

(** Lines 146-152: the value of one root move. *)
Definition root_value (fuel : nat) (depth : Z) (maximize : bool)
    (move : Move BM) : M BM score :=
  board_push move ;;;
  b <- get_board ;;
  value <- (if can_claim_draw BM b then ret (Finite 0)
            else minimax fuel (depth - 1) NegInf PosInf (negb maximize)) ;;
  board_pop ;;;
  ret value.

(** Lines 153-158: the update of [best_move] and [best_move_found]. *)
Definition root_select (maximize : bool) (best : score * Move BM)
    (value : score) (move : Move BM) : score * Move BM :=
  if maximize && score_leb best.1 value then (value, move)
  else if negb maximize && score_leb value best.1 then (value, move)
  else best.

(** The selection these updates make over the values of the moves, taken in
    order. *)
Definition selection (maximize : bool) (best : score * Move BM)
    (values : list score) (moves : list (Move BM)) : score * Move BM :=
  fold_left (fun acc vm => root_select maximize acc vm.1 vm.2)
    (combine values moves) best.

(** Lines 145-158: the loop over the root moves, on the two locals
    [best_move] and [best_move_found]. *)
Fixpoint root_loop (fuel : nat) (depth : Z) (maximize : bool)
    (moves : list (Move BM)) (best : score * Move BM)
    : M BM (score * Move BM) :=
  match moves with
  | [] => ret best
  | move :: rest =>
      value <- root_value fuel depth maximize move ;;
      root_loop fuel depth maximize rest (root_select maximize best value move)
  end.

(** Lines 137-143. *)
Definition initial_best (maximize : bool) : score :=
  if negb maximize then PosInf else NegInf.

(** Lines 135-158, returning both locals at the end of the loop;
    [moves[0]] raises [IndexError] on an empty list. *)
Definition minimax_root_scored (fuel : nat) (depth : Z)
    : M BM (score * Move BM) :=
  b <- get_board ;;
  let maximize := color_eqb (turn BM b) WHITE in
  let best_move := initial_best maximize in
  moves <- lift (ordered b) ;;
  match moves with
  | [] => raise IndexError
  | first :: _ =>
      root_loop fuel depth maximize moves (best_move, first)
  end.

(** Lines 135-160: [return best_move_found]. *)
Definition minimax_root (fuel : nat) (depth : Z) : M BM (Move BM) :=
  r <- minimax_root_scored fuel depth ;; ret r.2.

(** Lines 22-35; the clock and the printing are left out. *)
Definition next_move (fuel : nat) (depth : Z) : M BM (Move BM) :=
  reset_debug_info ;;;
  move <- minimax_root fuel depth ;;
  ret move.

(** *** The full-width search of the specification

    The same search without the cutoff of lines 200-201 and 219-220: every
    move of every node is searched.  It is what the pruned search is compared
    with. *)
Fixpoint maximise_full (recurse : M BM score) (moves : list (Move BM))
    (best_move : score) : M BM score :=
  match moves with
  | [] => ret best_move
  | move :: rest =>
      board_push move ;;;
      curr_move <- recurse ;;
      let best_move := py_max best_move (mate_adjust curr_move) in
      board_pop ;;;
      maximise_full recurse rest best_move
  end.

Fixpoint minimise_full (recurse : M BM score) (moves : list (Move BM))
    (best_move : score) : M BM score :=
  match moves with
  | [] => ret best_move
  | move :: rest =>
      board_push move ;;;
      curr_move <- recurse ;;
      let best_move := py_min best_move (mate_adjust curr_move) in
      board_pop ;;;
      minimise_full recurse rest best_move
  end.

Fixpoint minimax_full (fuel : nat) (depth : Z) (is_maximising_player : bool)
    {struct fuel} : M BM score :=
  match fuel with
  | O => fun s => (OutOfFuel, s)
  | S fuel' =>
      count_node ;;;
      b <- get_board ;;
      if is_checkmate BM b then
        ret (Finite (if is_maximising_player then - MATE_SCORE else MATE_SCORE))
      else if is_game_over BM b then ret (Finite 0)
      else if depth =? 0 then
        v <- lift (evaluate_board EV b) ;; ret (Finite v)
      else if is_maximising_player then
        moves <- lift (ordered b) ;;
        maximise_full (minimax_full fuel' (depth - 1) (negb is_maximising_player))
          moves NegInf
      else
        moves <- lift (ordered b) ;;
        minimise_full (minimax_full fuel' (depth - 1) (negb is_maximising_player))
          moves PosInf
  end.

Definition root_value_full (fuel : nat) (depth : Z) (maximize : bool)
    (move : Move BM) : M BM score :=
  board_push move ;;;
  b <- get_board ;;
  value <- (if can_claim_draw BM b then ret (Finite 0)
            else minimax_full fuel (depth - 1) (negb maximize)) ;;
  board_pop ;;;
  ret value.

Fixpoint root_loop_full (fuel : nat) (depth : Z) (maximize : bool)
    (moves : list (Move BM)) (best : score * Move BM)
    : M BM (score * Move BM) :=
  match moves with
  | [] => ret best
  | move :: rest =>
      value <- root_value_full fuel depth maximize move ;;
      root_loop_full fuel depth maximize rest (root_select maximize best value move)
  end.

Definition minimax_root_full (fuel : nat) (depth : Z)
    : M BM (score * Move BM) :=
  b <- get_board ;;
  let maximize := color_eqb (turn BM b) WHITE in
  moves <- lift (ordered b) ;;
  match moves with
  | [] => raise IndexError
  | first :: _ =>
      root_loop_full fuel depth maximize moves (initial_best maximize, first)
  end.

(** The values the root loop computes, move by move, when every branch
    returns. *)
Inductive root_values (fuel : nat) (depth : Z) (maximize : bool)
  : list (Move BM) -> state BM -> list score -> state BM -> Prop :=
| root_values_nil s : root_values fuel depth maximize [] s [] s
| root_values_cons move rest s value s1 values s2 :
    root_value fuel depth maximize move s = (Return value, s1) ->
    root_values fuel depth maximize rest s1 values s2 ->
    root_values fuel depth maximize (move :: rest) s (value :: values) s2.
End Search.

(** ** Scores that are not mate scores

    [ordinary v]: [v] is an integer within the threshold, or infinite; the
    step of lines 190-193 leaves such a score alone.  [rank] places these
    scores on the integers. *)
Definition ordinary (v : score) : Prop :=
  match v with
  | Finite z => - MATE_THRESHOLD <= z <= MATE_THRESHOLD
  | _ => True
  end.

Definition rank (v : score) : Z :=
  match v with
  | NegInf => - MATE_THRESHOLD - 1
  | Finite z => z
  | PosInf => MATE_THRESHOLD + 1
  end.

(** What the value [f] of a search with the bounds [alpha] and [beta] says
    about the full-width value [m]: an upper bound when it fails low, a lower
    bound when it fails high, and the value itself in between. *)
Definition bound (alpha beta f m : score) : Prop :=
  (score_le f alpha -> score_le m f) /\
  (score_le beta f -> score_le f m) /\
  (score_lt alpha f -> score_lt f beta -> f = m).

(** What the pruned call [rec] owes to the full-width call [recF]. *)
Definition prunes {BM} (recF : M BM score) (rec : score -> score -> M BM score) : Prop :=
  forall s m s1,
    recF s = (Return m, s1) ->
    ordinary m /\ board s1 = board s /\ has_counter s /\ has_counter s1 /\
    forall alpha beta t,
      board t = board s -> has_counter t ->
      ordinary alpha -> ordinary beta -> score_lt alpha beta ->
      exists f t1,
        rec alpha beta t = (Return f, t1) /\
        board t1 = board t /\ has_counter t1 /\ ordinary f /\ bound alpha beta f m.

(** ** The source's own orderer plugged into the search *)

Section SourceSearch.
Variable BM : BoardModel.
Variable EV : Evaluator BM.
Variable FT : Features BM.

Definition minimax_root_src : nat -> Z -> M BM (Move BM) :=
  minimax_root BM EV (get_ordered_moves BM EV FT).

Definition next_move_src : nat -> Z -> M BM (Move BM) :=
  next_move BM EV (get_ordered_moves BM EV FT).
End SourceSearch.

(** ** Concrete boards

    A game given as a tree of positions: a position is checkmate, over for
    another reason, or has a static evaluation (which may raise), a flag for
    a claimable draw and its successors; a move is the index of a successor. *)

Inductive position : Type :=
| Checkmate
| GameOver
| Node (ev : result Z) (claimable : bool) (successors : list position).

Record tree_board : Type := mkTreeBoard {
  to_move : color;
  current : position;
  history : list position
}.

Definition successors_of (p : position) : list position :=
  match p with Node _ _ l => l | _ => [] end.

Definition tree_push (m : nat) (b : tree_board) : tree_board :=
  mkTreeBoard (opposite (to_move b))
    (nth m (successors_of (current b)) GameOver)
    (current b :: history b).

Definition tree_pop (b : tree_board) : tree_board :=
  match history b with
  | p :: h => mkTreeBoard (opposite (to_move b)) p h
  | [] => b
  end.

Definition tree_pop_push (m : nat) (b : tree_board)
  : tree_pop (tree_push m b) = b :=
  match b with
  | mkTreeBoard WHITE _ _ => eq_refl
  | mkTreeBoard BLACK _ _ => eq_refl
  end.

Definition tree_model : BoardModel := {|
  Board := tree_board;
  Move := nat;
  turn := to_move;
  legal_moves := fun b => seq 0 (length (successors_of (current b)));
  push := tree_push;
  pop := tree_pop;
  is_checkmate := fun b => match current b with Checkmate => true | _ => false end;
  is_game_over := fun b => match current b with Node _ _ _ => false | _ => true end;
  can_claim_draw := fun b => match current b with Node _ c _ => c | _ => false end;
  is_stalemate := fun _ => false;
  is_insufficient_material := fun _ => false;
  is_seventyfive_moves := fun _ => false;
  is_fivefold_repetition := fun _ => false;
  pieces := fun _ _ _ => [];
  pop_push := tree_pop_push
|}.

Definition tree_eval : Evaluator tree_model := {|
  evaluate_board := fun b : Board tree_model =>
    match current b with Node ev _ _ => ev | _ => Ok 0 end;
  move_value := fun _ _ _ _ _ _ _ _ => Ok 0;
  check_end_game := fun _ => Ok false
|}.

(** An orderer that keeps the order of the legal moves. *)
Definition tree_ordered (b : Board tree_model) : result (list (Move tree_model)) :=
  Ok (legal_moves tree_model b).

Definition tree_start (c : color) (p : position) : state tree_model :=
  mkState (mkTreeBoard c p [] : Board tree_model) ∅.

Definition tree_started (c : color) (p : position) : state tree_model :=
  mkState (mkTreeBoard c p [] : Board tree_model) (<["nodes"%string := 0]> ∅).

(** A position with one successor, and a forced line of [n] moves that ends
    in checkmate. *)
Definition only (p : position) : position := Node (Ok 0) false [p].

Fixpoint mate_in (n : nat) : position :=
  match n with
  | O => Checkmate
  | S n' => only (mate_in n')
  end.

(** White to move.  After the first move Black chooses between a line that
    is mated in three further moves and a line where White, two moves later,
    chooses between a mate in two and a mate on the spot; the second root
    move is a forced mate in six. *)
Definition mate_race : position :=
  Node (Ok 0) false
    [ Node (Ok 0) false
        [ mate_in 3;
          only (only (Node (Ok 0) false [mate_in 2; Checkmate])) ];
      mate_in 6 ].

(** An evaluator and an orderer that raise whenever they are called. *)
Definition raising_eval : Evaluator tree_model := {|
  evaluate_board := fun _ => Err (External 7);
  move_value := fun _ _ _ _ _ _ _ _ => Err (External 7);
  check_end_game := fun _ => Err (External 7)
|}.

Definition raising_ordered (b : Board tree_model)
  : result (list (Move tree_model)) := Err (External 8).

(** A position whose static evaluation is 30, and one where it raises. *)
Definition quiet : position := Node (Ok 30) false [].
Definition broken : position := Node (Err (External 1)) false [].

(** Two moves with the same value. *)
Definition tie : position := Node (Ok 0) false [quiet; quiet].

(** A position from which the first move allows a draw claim. *)
Definition drawable : position :=
  Node (Ok 0) false [Node (Ok 30) true [quiet]; quiet].

(** The root selection of the specification: the first move, in the order of
    the orderer, whose value is the extremum. *)
Definition selects_first {A} (maximize : bool) (values : list score)
    (moves : list A) (chosen : A) : Prop :=
  exists (i : nat) v,
    moves !! i = Some chosen /\ values !! i = Some v /\
    (forall j w, values !! j = Some w -> at_most maximize w v) /\
    (forall j w, (j < i)%nat -> values !! j = Some w -> w <> v).

(** A board given by its men, for the material score. *)
Record men_board : Type := mkMenBoard {
  men_turn : color;
  men : list (color * piece_type * piece_square)
}.

Definition piece_type_eqb (a b : piece_type) : bool :=
  match a, b with
  | PAWN, PAWN | KNIGHT, KNIGHT | BISHOP, BISHOP
  | ROOK, ROOK | QUEEN, QUEEN | KING, KING => true
  | _, _ => false
  end.

Definition men_pieces (b : men_board) (c : color) (p : piece_type)
  : list piece_square :=
  map snd (filter (fun x => color_eqb x.1.1 c && piece_type_eqb x.1.2 p) (men b)).

Definition men_model : BoardModel := {|
  Board := men_board;
  Move := unit;
  turn := men_turn;
  legal_moves := fun _ => [];
  push := fun _ b => b;
  pop := fun b => b;
  is_checkmate := fun _ => false;
  is_game_over := fun _ => false;
  can_claim_draw := fun _ => false;
  is_stalemate := fun _ => false;
  is_insufficient_material := fun _ => false;
  is_seventyfive_moves := fun _ => false;
  is_fivefold_repetition := fun _ => false;
  pieces := men_pieces;
  pop_push := fun _ _ => eq_refl
|}.

(** On this board every move leads back to the same position: an evaluator
    and an orderer for it. *)
Definition men_eval : Evaluator men_model := {|
  evaluate_board := fun _ => Ok 25;
  move_value := fun _ _ _ _ _ _ _ _ => Ok 0;
  check_end_game := fun _ => Ok false
|}.

Definition men_ordered (b : Board men_model) : result (list (Move men_model)) :=
  Ok [tt; tt].

(** White: king e1, pawn e2.  Black: king e8.  White to move. *)
Definition pawn_up : Board men_model :=
  mkMenBoard WHITE [(WHITE, KING, 4%nat); (WHITE, PAWN, 12%nat); (BLACK, KING, 60%nat)].

(** ** The counter, the scores and the board across a search

    Notions in which the behaviour of the search on [debug_info], on the
    range of the scores and on the board is stated. *)

(** [debug_info] after a run: every entry but ["nodes"] is as before, and
    ["nodes"], when present, has not decreased. *)
Definition counter_grows {BM} (s s' : state BM) : Prop :=
  (forall key, key <> "nodes"%string ->
               debug_info s' !! key = debug_info s !! key) /\
  match debug_info s !! "nodes"%string with
  | Some n => exists n', debug_info s' !! "nodes"%string = Some n' /\ n <= n'
  | None => debug_info s' !! "nodes"%string = None
  end.

(** The root moves whose position does not allow a draw claim: the ones
    line 146 passes to [minimax]. *)
Definition searched_moves (BM : BoardModel) (b : Board BM)
    (moves : list (Move BM)) : list (Move BM) :=
  List.filter (fun move => negb (can_claim_draw BM (push BM move b))) moves.

(** [within k v]: [v] is an integer of magnitude at most [k]. *)
Definition within (k : Z) (v : score) : Prop :=
  match v with
  | Finite z => - k <= z <= k
  | _ => False
  end.

(** The value the root loop gives a move, by the position the move leads
    to: 0 when a draw can be claimed, the mate score of the side to move when
    it is checkmate, and an integer strictly inside the mate scores
    otherwise. *)
Definition root_grade (BM : BoardModel) (b : Board BM) (maximize : bool)
    (move : Move BM) (v : score) : Prop :=
  if can_claim_draw BM (push BM move b) then v = Finite 0
  else if is_checkmate BM (push BM move b)
       then v = Finite (if maximize then MATE_SCORE else - MATE_SCORE)
       else within (MATE_SCORE - 1) v.

(** The opposite score, a run with its result mapped, and the evaluator
    with every static evaluation negated. *)
Definition score_opp (v : score) : score :=
  match v with
  | NegInf => PosInf
  | Finite z => Finite (- z)
  | PosInf => NegInf
  end.

Definition opposite_run {BM A B} (f : A -> B) (r : outcome A * state BM)
  : outcome B * state BM :=
  match r with
  | (Return a, s) => (Return (f a), s)
  | (Raise e, s) => (Raise e, s)
  | (OutOfFuel, s) => (OutOfFuel, s)
  end.

Definition negated {BM} (EV : Evaluator BM) : Evaluator BM := {|
  evaluate_board := fun b =>
    match evaluate_board EV b with Ok v => Ok (- v) | Err e => Err e end;
  move_value := move_value EV;
  check_end_game := check_end_game EV
|}.

Definition opposite_choice {BM} (r : score * Move BM) : score * Move BM :=
  (score_opp r.1, r.2).

(** The board after the moves of [line], first move first, and the board
    after [n] calls of [board.pop()]. *)
Definition after_line (BM : BoardModel) (line : list (Move BM)) (b : Board BM)
  : Board BM :=
  fold_left (fun b move => push BM move b) line b.

Definition popped_times (BM : BoardModel) (n : nat) (b : Board BM) : Board BM :=
  Nat.iter n (pop BM) b.

(** A run that did not return. *)
Definition stopped {A} (o : outcome A) : Prop :=
  match o with Return _ => False | _ => True end.

(** The board of [s'] is the board of [s] with a line of moves pushed, of
    a length that [allowed] admits. *)
Definition left_on_line {BM} (allowed : nat -> Prop) (s s' : state BM) : Prop :=
  exists line,
    allowed (length line) /\ board s' = after_line BM line (board s).

(** The lengths a search of depth [depth] can leave behind: at most [depth]
    when the depth is at least [least]. *)
Definition at_most_plies (least depth : Z) (n : nat) : Prop :=
  least <= depth -> Z.of_nat n <= depth.

(** ** The bodies of the feature extractors (lines 56-80)

    The record [Features] takes the bodies as given; here the bodies of
    [evaluate_mobility], [evaluate_threats] and [evaluate_open_lines] are
    written out.  [Board.pieces(self, piece_type, color)] is a method of two
    parameters; the source also calls it with three arguments.  What lies
    behind these calls asks more of the library: the type of the piece a
    move moves, whether the side to move is in check, the square of a king
    and the attribute [move] of a piece; the two attributes may raise. *)
Definition Board_pieces {BM : BoardModel} (b : Board BM)
  : pyfunction BM (list piece_square) :=
  {| parameters := ["piece_type"%string; "color"%string];
     body := fun args =>
               match args with
               | [VColor c; VPiece p] => Ok (pieces BM b c p)
               | _ => Err TypeError
               end |}.

Record BoardPrimitives (BM : BoardModel) : Type := {
  piece_type_of : Move BM -> result piece_type;
  is_check : Board BM -> bool;
  king : Board BM -> color -> option piece_square;
  piece_move : piece_square -> result (Move BM)
}.
Arguments piece_type_of {BM} _ _.
Arguments is_check {BM} _ _.
Arguments king {BM} _ _ _.
Arguments piece_move {BM} _ _.

Section FeatureBodies.
Variable BM : BoardModel.
Variable P : BoardPrimitives BM.

(** Lines 76-79: the inner loop with its [break]; it does not look at the
    piece of the outer loop. *)
Fixpoint pawn_move_found (moves : list (Move BM)) : result bool :=
  match moves with
  | [] => Ok false
  | move :: rest =>
      result_bind (piece_type_of P move) (fun moved =>
      if piece_type_eqb moved PAWN then Ok true else pawn_move_found rest)
  end.

(** Lines 73-80. *)
Definition open_lines_source (b : Board BM) (c : color) : result Z :=
  result_bind (call (Board_pieces b) [VColor c; VPiece ROOK; VPiece QUEEN])
    (fun squares =>
  for_each
    (fun open_lines piece =>
       result_bind (pawn_move_found (legal_moves BM b)) (fun found =>
       Ok (if found then open_lines + 1 else open_lines)))
    squares 0).

(** [square not in squares], for the square of a king, which may be [None]. *)
Definition not_among (square : option piece_square)
    (squares : list piece_square) : bool :=
  match square with
  | Some sq => negb (existsb (Nat.eqb sq) squares)
  | None => true
  end.

(** Lines 65-70: the inner loop with its [break]; the move is pushed on a
    copy of the board. *)
Definition check_with_king_away (b : Board BM) (c : color) : bool :=
  existsb
    (fun move =>
       let new_board := push BM move b in
       is_check P new_board
       && not_among (king P new_board c) (pieces BM b c KING))
    (legal_moves BM b).

(** Lines 62-71: the arguments of line 64 are evaluated before the call. *)
Definition threats_source (b : Board BM) (c : color) : result Z :=
  result_bind (Color_opposite c) (fun other =>
  result_bind (call (Board_pieces b) [VColor other; VPiece PAWN; VPiece QUEEN])
    (fun squares =>
  Ok (fold_left
        (fun threats piece =>
           if check_with_king_away b c then threats + 1 else threats)
        squares 0))).

(** Iterating over the value of a call that returns [None]. *)
Definition iterate_none {A} (call : M BM unit) : M BM (list A) :=
  call ;;; raise TypeError.

(** Lines 58-59: the loop of [evaluate_mobility]; [board.push] is called on
    the board itself. *)
Fixpoint mobility_loop (squares : list piece_square) (mobility : Z) : M BM Z :=
  match squares with
  | [] => ret mobility
  | piece :: rest =>
      move <- lift (piece_move P piece) ;;
      boards <- iterate_none (A := list (Move BM)) (board_push move) ;;
      mobility_loop rest (mobility + len boards)
  end.

(** Lines 56-60. *)
Definition mobility_source (c : color) : M BM Z :=
  b <- get_board ;;
  squares <- lift (call (Board_pieces b) [VColor c; VPiece PAWN; VPiece QUEEN]) ;;
  mobility_loop squares 0.
End FeatureBodies.

(** ** Further concrete boards *)

(** Extractor bodies that return 0. *)
Definition plain_features (BM : BoardModel) : Features BM := {|
  mobility_body := fun _ _ => Ok 0;
  threats_body := fun _ _ => Ok 0;
  open_lines_body := fun _ _ => Ok 0;
  pawn_structure_body := fun _ _ => Ok 0
|}.

(** On the game tree: an evaluator that returns 0 everywhere and an orderer
    that always offers the moves 0 and 1 (a move without a successor leads
    to a finished game). *)
Definition flat_eval : Evaluator tree_model := {|
  evaluate_board := fun _ => Ok 0;
  move_value := fun _ _ _ _ _ _ _ _ => Ok 0;
  check_end_game := fun _ => Ok false
|}.

Definition two_ordered (b : Board tree_model) : result (list (Move tree_model)) :=
  Ok [0%nat; 1%nat].

(** The second move mates. *)
Definition mate_or_wait : position := Node (Ok 0) false [quiet; Checkmate].

(** The evaluator raises two plies below the root. *)
Definition trap : position := only (only broken).

(** * Properties *)

(** ** Scores *)

Ltac score_cases :=
  repeat match goal with x : score |- _ => destruct x end;
  unfold py_max, py_min, score_ltb, score_leb in *; simpl in *;
  repeat match goal with
         | |- context [?a <=? ?b] => destruct (Z.leb_spec a b)
         | H : context [?a <=? ?b] |- _ => destruct (Z.leb_spec a b)
         end;
  simpl in *; try congruence; try lia.

Lemma score_le_refl a : score_le a a.
Proof. unfold score_le. score_cases. Qed.

Lemma score_le_trans a b c : score_le a b -> score_le b c -> score_le a c.
Proof. unfold score_le. score_cases. Qed.

Lemma score_lt_le_trans a b c : score_lt a b -> score_le b c -> score_lt a c.
Proof. unfold score_le, score_lt. score_cases. Qed.

Lemma score_leb_false_lt a b : score_leb a b = false -> score_lt b a.
Proof. unfold score_lt, score_ltb. now intros ->. Qed.

Lemma score_lt_le a b : score_lt a b -> score_le a b.
Proof. unfold score_le, score_lt. score_cases. Qed.

Lemma score_lt_neq a b : score_lt a b -> a <> b.
Proof. unfold score_lt. intros H ->. score_cases. Qed.

Lemma score_le_NegInf a : score_le NegInf a.
Proof. reflexivity. Qed.

Lemma score_le_PosInf a : score_le a PosInf.
Proof. now destruct a. Qed.

Lemma toward_zero_above z : MATE_THRESHOLD < z -> toward_zero z = z - 1.
Proof.
  unfold toward_zero, MATE_THRESHOLD. intros H.
  destruct (Z.ltb_spec 999000000 (Z.abs z)); lia.
Qed.

Lemma toward_zero_below z : z < - MATE_THRESHOLD -> toward_zero z = z + 1.
Proof.
  unfold toward_zero, MATE_THRESHOLD. intros H.
  destruct (Z.ltb_spec 999000000 (Z.abs z)); lia.
Qed.

Lemma toward_zero_within z :
  - MATE_THRESHOLD <= z <= MATE_THRESHOLD -> toward_zero z = z.
Proof.
  unfold toward_zero, MATE_THRESHOLD. intros H.
  destruct (Z.ltb_spec 999000000 (Z.abs z)); lia.
Qed.

(** The branches of lines 190-193 are the step of the specification. *)
Lemma mate_adjust_finite z : mate_adjust (Finite z) = Finite (toward_zero z).
Proof.
  unfold mate_adjust, toward_zero, score_ltb, score_leb, MATE_THRESHOLD; simpl.
  pose proof (Z.sgn_spec z) as Hsgn.
  destruct (Z.ltb_spec 999000000 (Z.abs z));
    repeat match goal with
           | |- context [?a <=? ?b] => destruct (Z.leb_spec a b); simpl
           end;
    f_equal; lia.
Qed.

Lemma mate_adjust_infinite : mate_adjust NegInf = NegInf /\ mate_adjust PosInf = PosInf.
Proof. split; reflexivity. Qed.

(** ** The search engine *)

Section SearchFacts.
Variable BM : BoardModel.
Variable EV : Evaluator BM.
Variable ordered : Board BM -> result (list (Move BM)).

Abbreviation minimax' := (minimax BM EV ordered).

(** Without the entry ["nodes"] the first statement of [minimax] raises. *)
Lemma minimax_without_counter fuel depth alpha beta mx (s : state BM) :
  debug_info s !! "nodes"%string = None ->
  minimax' (S fuel) depth alpha beta mx s = (Raise KeyError, s).
Proof.
  intros H. cbn [minimax]. unfold bind at 1. unfold count_node. now rewrite H.
Qed.

(** One call of [minimax] with fuel left, past the counter. *)
Lemma minimax_unfold fuel depth alpha beta mx (s : state BM) n :
  debug_info s !! "nodes"%string = Some n ->
  minimax' (S fuel) depth alpha beta mx s =
    let b := board s in
    let s' := counted s n in
    if is_checkmate BM b then
      (Return (Finite (if mx then - MATE_SCORE else MATE_SCORE)), s')
    else if is_game_over BM b then (Return (Finite 0), s')
    else if depth =? 0 then
      match evaluate_board EV b with
      | Ok v => (Return (Finite v), s')
      | Err e => (Raise e, s')
      end
    else
      match ordered b with
      | Err e => (Raise e, s')
      | Ok moves =>
          if mx then
            maximise BM (fun a b => minimax' fuel (depth - 1) a b (negb mx))
              moves NegInf alpha beta s'
          else
            minimise BM (fun a b => minimax' fuel (depth - 1) a b (negb mx))
              moves PosInf alpha beta s'
      end.
Proof.
  intros H. cbn [minimax]. unfold bind at 1. unfold count_node at 1. rewrite H.
  unfold bind at 1. unfold get_board at 1. cbn [board].
  cbv zeta. unfold counted.
  destruct (is_checkmate BM (board s)); [reflexivity|].
  destruct (is_game_over BM (board s)); [reflexivity|].
  destruct (depth =? 0).
  - unfold bind, lift, ret, raise. now destruct (evaluate_board EV (board s)).
  - destruct mx; unfold bind at 1; unfold lift, ret, raise;
      now destruct (ordered (board s)).
Qed.

(** One iteration of the maximising loop, given what the recursive call
    returned. *)
Lemma maximise_step recurse move rest best alpha beta (s s1 : state BM) v :
  recurse alpha beta (pushed move s) = (Return v, s1) ->
  maximise BM recurse (move :: rest) best alpha beta s =
    let best' := py_max best (mate_adjust v) in
    let alpha' := py_max alpha best' in
    if score_leb beta alpha' then (Return best', popped s1)
    else maximise BM recurse rest best' alpha' beta (popped s1).
Proof.
  intros H. cbn [maximise]. unfold bind at 1. unfold board_push at 1.
  fold (pushed move s). unfold bind at 1. rewrite H.
  unfold bind at 1. unfold board_pop at 1. fold (popped s1). cbv zeta.
  now destruct (score_leb beta _).
Qed.

Lemma minimise_step recurse move rest best alpha beta (s s1 : state BM) v :
  recurse alpha beta (pushed move s) = (Return v, s1) ->
  minimise BM recurse (move :: rest) best alpha beta s =
    let best' := py_min best (mate_adjust v) in
    let beta' := py_min beta best' in
    if score_leb beta' alpha then (Return best', popped s1)
    else minimise BM recurse rest best' alpha beta' (popped s1).
Proof.
  intros H. cbn [minimise]. unfold bind at 1. unfold board_push at 1.
  fold (pushed move s). unfold bind at 1. rewrite H.
  unfold bind at 1. unfold board_pop at 1. fold (popped s1). cbv zeta.
  now destruct (score_leb _ alpha).
Qed.

(** When the recursive call does not return, the loop stops there: the move
    stays on the board. *)
Lemma maximise_fails recurse move rest best alpha beta (s s1 : state BM) :
  (forall e, recurse alpha beta (pushed move s) = (Raise e, s1) ->
     maximise BM recurse (move :: rest) best alpha beta s = (Raise e, s1)) /\
  (recurse alpha beta (pushed move s) = (OutOfFuel, s1) ->
     maximise BM recurse (move :: rest) best alpha beta s = (OutOfFuel, s1)).
Proof.
  split; [intros e H|intros H]; cbn [maximise]; unfold bind at 1;
    unfold board_push at 1; fold (pushed move s); unfold bind at 1;
    now rewrite H.
Qed.

Lemma minimise_fails recurse move rest best alpha beta (s s1 : state BM) :
  (forall e, recurse alpha beta (pushed move s) = (Raise e, s1) ->
     minimise BM recurse (move :: rest) best alpha beta s = (Raise e, s1)) /\
  (recurse alpha beta (pushed move s) = (OutOfFuel, s1) ->
     minimise BM recurse (move :: rest) best alpha beta s = (OutOfFuel, s1)).
Proof.
  split; [intros e H|intros H]; cbn [minimise]; unfold bind at 1;
    unfold board_push at 1; fold (pushed move s); unfold bind at 1;
    now rewrite H.
Qed.
(** *** The board after a call that returns *)

Lemma maximise_restores recurse moves best alpha beta (s s' : state BM) v :
  (forall a b t w t', recurse a b t = (Return w, t') -> board t' = board t) ->
  maximise BM recurse moves best alpha beta s = (Return v, s') ->
  board s' = board s.
Proof.
  intros Hrec. revert best alpha s.
  induction moves as [|move rest IH]; intros best alpha s H.
  - cbn in H. unfold ret in H. now inversion H.
  - destruct (recurse alpha beta (pushed move s)) as [[w|e|] s1] eqn:E.
    + rewrite (maximise_step _ _ _ _ _ _ _ _ _ E) in H. cbv zeta in H.
      assert (Hb : board (popped s1) = board s).
      { unfold popped; cbn. rewrite (Hrec _ _ _ _ _ E). cbn. apply pop_push. }
      destruct (score_leb beta _).
      * inversion H; subst. exact Hb.
      * rewrite (IH _ _ _ H). exact Hb.
    + rewrite (proj1 (maximise_fails _ _ _ _ _ _ _ _) _ E) in H. discriminate.
    + rewrite (proj2 (maximise_fails _ _ _ _ _ _ _ _) E) in H. discriminate.
Qed.

Lemma minimise_restores recurse moves best alpha beta (s s' : state BM) v :
  (forall a b t w t', recurse a b t = (Return w, t') -> board t' = board t) ->
  minimise BM recurse moves best alpha beta s = (Return v, s') ->
  board s' = board s.
Proof.
  intros Hrec. revert best beta s.
  induction moves as [|move rest IH]; intros best beta s H.
  - cbn in H. unfold ret in H. now inversion H.
  - destruct (recurse alpha beta (pushed move s)) as [[w|e|] s1] eqn:E.
    + rewrite (minimise_step _ _ _ _ _ _ _ _ _ E) in H. cbv zeta in H.
      assert (Hb : board (popped s1) = board s).
      { unfold popped; cbn. rewrite (Hrec _ _ _ _ _ E). cbn. apply pop_push. }
      destruct (score_leb _ alpha).
      * inversion H; subst. exact Hb.
      * rewrite (IH _ _ _ H). exact Hb.
    + rewrite (proj1 (minimise_fails _ _ _ _ _ _ _ _) _ E) in H. discriminate.
    + rewrite (proj2 (minimise_fails _ _ _ _ _ _ _ _) E) in H. discriminate.
Qed.

Lemma minimax_restores fuel depth alpha beta mx (s s' : state BM) v :
  minimax' fuel depth alpha beta mx s = (Return v, s') ->
  board s' = board s.
Proof.
  revert depth alpha beta mx s s' v.
  induction fuel as [|fuel IH]; intros depth alpha beta mx s s' v H.
  - discriminate.
  - destruct (debug_info s !! "nodes"%string) as [n|] eqn:Hn.
    2:{ rewrite (minimax_without_counter _ _ _ _ _ _ Hn) in H. discriminate. }
    rewrite (minimax_unfold _ _ _ _ _ _ _ Hn) in H. cbv zeta in H.
    destruct (is_checkmate BM (board s)); [now inversion H|].
    destruct (is_game_over BM (board s)); [now inversion H|].
    destruct (depth =? 0).
    { destruct (evaluate_board EV (board s)); now inversion H. }
    destruct (ordered (board s)) as [moves|e]; [|discriminate].
    destruct mx.
    + apply maximise_restores in H; [exact H|]. intros; eapply IH; eassumption.
    + apply minimise_restores in H; [exact H|]. intros; eapply IH; eassumption.
Qed.

(** *** The root driver *)

Lemma root_value_unfold fuel depth maximize move (s : state BM) :
  root_value BM EV ordered fuel depth maximize move s =
    if can_claim_draw BM (push BM move (board s)) then
      (Return (Finite 0), popped (pushed move s))
    else
      match minimax' fuel (depth - 1) NegInf PosInf (negb maximize) (pushed move s) with
      | (Return value, s1) => (Return value, popped s1)
      | (Raise e, s1) => (Raise e, s1)
      | (OutOfFuel, s1) => (OutOfFuel, s1)
      end.
Proof.
  unfold root_value. unfold bind at 1. unfold board_push at 1.
  fold (pushed move s). unfold bind at 1. unfold get_board at 1.
  cbn [board pushed].
  destruct (can_claim_draw BM (push BM move (board s))).
  - reflexivity.
  - unfold bind at 1.
    destruct (minimax' fuel (depth - 1) NegInf PosInf (negb maximize) (pushed move s))
      as [[value|e|] s1]; reflexivity.
Qed.

Lemma root_value_restores fuel depth maximize move (s s' : state BM) v :
  root_value BM EV ordered fuel depth maximize move s = (Return v, s') ->
  board s' = board s.
Proof.
  rewrite root_value_unfold.
  destruct (can_claim_draw BM (push BM move (board s))).
  - intros H; inversion H; subst. cbn. apply pop_push.
  - destruct (minimax' fuel (depth - 1) NegInf PosInf (negb maximize) (pushed move s))
      as [[value|e|] s1] eqn:E; intros H; inversion H; subst.
    cbn. rewrite (minimax_restores _ _ _ _ _ _ _ _ E). cbn. apply pop_push.
Qed.

Lemma root_loop_step fuel depth maximize move rest best (s : state BM) :
  root_loop BM EV ordered fuel depth maximize (move :: rest) best s =
    match root_value BM EV ordered fuel depth maximize move s with
    | (Return value, s1) =>
        root_loop BM EV ordered fuel depth maximize rest
          (root_select BM maximize best value move) s1
    | (Raise e, s1) => (Raise e, s1)
    | (OutOfFuel, s1) => (OutOfFuel, s1)
    end.
Proof. reflexivity. Qed.

Lemma root_values_length fuel depth maximize moves (s s' : state BM) values :
  root_values BM EV ordered fuel depth maximize moves s values s' ->
  length values = length moves.
Proof. induction 1; cbn; congruence. Qed.

Lemma root_loop_values fuel depth maximize moves (s s' : state BM) values best :
  root_values BM EV ordered fuel depth maximize moves s values s' ->
  root_loop BM EV ordered fuel depth maximize moves best s =
    (Return (selection BM maximize best values moves), s').
Proof.
  intros H. revert best.
  induction H as [s|move rest s value s1 values s2 Hv _ IH]; intros best.
  - reflexivity.
  - rewrite root_loop_step, Hv. apply IH.
Qed.

Lemma root_loop_restores fuel depth maximize moves best (s s' : state BM) r :
  root_loop BM EV ordered fuel depth maximize moves best s = (Return r, s') ->
  board s' = board s.
Proof.
  revert best s.
  induction moves as [|move rest IH]; intros best s H.
  - cbn in H. unfold ret in H. now inversion H.
  - rewrite root_loop_step in H.
    destruct (root_value BM EV ordered fuel depth maximize move s)
      as [[value|e|] s1] eqn:E; try discriminate.
    rewrite (IH _ _ H). eapply root_value_restores; eassumption.
Qed.

Lemma minimax_root_scored_unfold fuel depth (s : state BM) :
  minimax_root_scored BM EV ordered fuel depth s =
    let maximize := color_eqb (turn BM (board s)) WHITE in
    match ordered (board s) with
    | Err e => (Raise e, s)
    | Ok [] => (Raise IndexError, s)
    | Ok (first :: rest) =>
        root_loop BM EV ordered fuel depth maximize (first :: rest)
          (initial_best maximize, first) s
    end.
Proof.
  unfold minimax_root_scored. unfold bind at 1. unfold get_board at 1.
  cbv zeta. unfold bind at 1. unfold lift.
  destruct (ordered (board s)) as [[|first rest]|e]; reflexivity.
Qed.

Lemma minimax_root_unfold fuel depth (s : state BM) :
  minimax_root BM EV ordered fuel depth s =
    match minimax_root_scored BM EV ordered fuel depth s with
    | (Return r, s') => (Return r.2, s')
    | (Raise e, s') => (Raise e, s')
    | (OutOfFuel, s') => (OutOfFuel, s')
    end.
Proof.
  unfold minimax_root, bind.
  destruct (minimax_root_scored BM EV ordered fuel depth s) as [[r|e|] s'];
    reflexivity.
Qed.

Lemma next_move_unfold fuel depth (s : state BM) :
  next_move BM EV ordered fuel depth s =
    minimax_root BM EV ordered fuel depth
      (mkState (board s) (<["nodes"%string := 0]> ∅)).
Proof.
  unfold next_move. unfold bind at 1. unfold reset_debug_info at 1.
  unfold bind, ret.
  destruct (minimax_root BM EV ordered fuel depth _) as [[r|e|] s'];
    reflexivity.
Qed.
End SearchFacts.

(** ** The selection at the root *)

Lemma at_most_refl mx v : at_most mx v v.
Proof. destruct mx; apply score_le_refl. Qed.

Lemma at_most_trans mx a b c : at_most mx a b -> at_most mx b c -> at_most mx a c.
Proof. destruct mx; cbn; eauto using score_le_trans. Qed.

Lemma below_at_most mx a b : below mx a b -> at_most mx a b.
Proof. destruct mx; apply score_lt_le. Qed.

Lemma below_neq mx a b : below mx a b -> a <> b.
Proof.
  destruct mx; cbn; intros H.
  - now apply score_lt_neq.
  - intros ->. now apply score_lt_neq in H.
Qed.

Lemma below_at_most_trans mx a b c : below mx a b -> at_most mx b c -> below mx a c.
Proof.
  destruct mx; cbn.
  - apply score_lt_le_trans.
  - unfold score_lt, score_le. score_cases.
Qed.

Lemma at_most_initial mx v : at_most mx (initial_best mx) v.
Proof. destruct mx; cbn; [apply score_le_NegInf | apply score_le_PosInf]. Qed.

Section Selection.
Variable BM : BoardModel.

Lemma root_select_cases mx (best : score * Move BM) v m :
  (at_most mx best.1 v /\ root_select BM mx best v m = (v, m)) \/
  (below mx v best.1 /\ root_select BM mx best v m = best).
Proof.
  unfold root_select, at_most, below, score_le, score_lt, score_ltb.
  destruct mx; cbn.
  - destruct (score_leb best.1 v); auto.
  - destruct (score_leb v best.1); auto.
Qed.

Lemma selection_cons mx (best : score * Move BM) v vs m ms :
  selection BM mx best (v :: vs) (m :: ms) =
  selection BM mx (root_select BM mx best v m) vs ms.
Proof. reflexivity. Qed.

(** The loop keeps the running selection only while every later value is
    strictly worse; otherwise it ends on the last position that holds the
    extremum. *)
Lemma selection_last mx (values : list score) :
  forall (moves : list (Move BM)) (best : score * Move BM),
  length values = length moves ->
  let r := selection BM mx best values moves in
  (r = best /\ forall j w, values !! j = Some w -> below mx w best.1) \/
  (exists i : nat,
      values !! i = Some r.1 /\ moves !! i = Some r.2 /\
      (forall j w, values !! j = Some w -> at_most mx w r.1) /\
      (forall j w, (i < j)%nat -> values !! j = Some w -> w <> r.1) /\
      at_most mx best.1 r.1).
Proof.
  induction values as [|v vs IH]; intros [|m ms] best Hlen; try discriminate.
  - left. split; [reflexivity|]. intros j w H. now rewrite lookup_nil in H.
  - cbn in Hlen. injection Hlen as Hlen. cbv zeta. rewrite selection_cons.
    destruct (root_select_cases mx best v m) as [[Hin Hsel]|[Hout Hsel]];
      rewrite Hsel;
      [specialize (IH ms (v, m) Hlen)|specialize (IH ms best Hlen)];
      cbv zeta in IH; destruct IH as [[Hr Hall]|(i & Hv & Hm & Hall & Hlater & Hbest)].
    + right. exists 0%nat. rewrite Hr. cbn [fst snd] in *.
      split; [reflexivity|]. split; [reflexivity|]. repeat split.
      * intros [|j] w Hj; cbn in Hj.
        -- injection Hj as <-. apply at_most_refl.
        -- apply below_at_most. eauto.
      * intros [|j] w Hlt Hj; [lia|]. cbn in Hj. apply (below_neq mx). eauto.
      * exact Hin.
    + right. exists (S i). cbn [fst snd] in *. repeat split; try assumption.
      * intros [|j] w Hj; cbn in Hj.
        -- injection Hj as <-. exact Hbest.
        -- eauto.
      * intros [|j] w Hlt Hj; [lia|]. cbn in Hj. apply (Hlater j); [lia|exact Hj].
      * eapply at_most_trans; eassumption.
    + left. split; [exact Hr|]. intros [|j] w Hj; cbn in Hj.
      * now injection Hj as <-.
      * eauto.
    + right. exists (S i). repeat split; try assumption.
      * intros [|j] w Hj; cbn in Hj.
        -- injection Hj as <-. apply below_at_most.
           eapply below_at_most_trans; eassumption.
        -- eauto.
      * intros [|j] w Hlt Hj; [lia|]. cbn in Hj. apply (Hlater j); [lia|exact Hj].
Qed.

Lemma selection_member mx (values : list score) (first : Move BM) rest best :
  length values = length (first :: rest) ->
  In (selection BM mx (best, first) values (first :: rest)).2 (first :: rest).
Proof.
  intros Hlen.
  destruct (selection_last mx values (first :: rest) (best, first) Hlen)
    as [[-> _]|(i & _ & Hm & _)].
  - now left.
  - apply list_elem_of_In. eapply list_elem_of_lookup_2. exact Hm.
Qed.

(** From the initial best ([-inf] for White, [inf] for Black) the first
    value is always taken. *)
Lemma root_select_initial mx (found : Move BM) v m :
  root_select BM mx (initial_best mx, found) v m = (v, m).
Proof.
  destruct (root_select_cases mx (initial_best mx, found) v m)
    as [[_ H]|[H _]]; [exact H|].
  exfalso. cbn [fst] in H. destruct mx; cbn in H; unfold score_lt in H; score_cases.
Qed.
End Selection.

(** ** Depths below zero

    [minimax] tests [depth == 0] only: below zero the depth plays no part,
    and the static evaluator is never reached. *)

Section NegativeDepth.
Variable BM : BoardModel.
Variable ordered : Board BM -> result (list (Move BM)).

Lemma maximise_ext (r1 r2 : score -> score -> M BM score) moves :
  (forall a b s, r1 a b s = r2 a b s) ->
  forall best alpha beta s,
    maximise BM r1 moves best alpha beta s = maximise BM r2 moves best alpha beta s.
Proof.
  intros Hr. induction moves as [|move rest IH]; intros best alpha beta s.
  - reflexivity.
  - pose proof (Hr alpha beta (pushed move s)) as E1.
    destruct (r2 alpha beta (pushed move s)) as [[v|e|] s1] eqn:E2.
    + rewrite (maximise_step _ _ _ _ _ _ _ _ _ _ E1),
        (maximise_step _ _ _ _ _ _ _ _ _ _ E2). cbv zeta.
      destruct (score_leb beta _); [reflexivity|apply IH].
    + now rewrite (proj1 (maximise_fails _ _ _ _ _ _ _ _ _) _ E1),
        (proj1 (maximise_fails _ _ _ _ _ _ _ _ _) _ E2).
    + now rewrite (proj2 (maximise_fails _ _ _ _ _ _ _ _ _) E1),
        (proj2 (maximise_fails _ _ _ _ _ _ _ _ _) E2).
Qed.

Lemma minimise_ext (r1 r2 : score -> score -> M BM score) moves :
  (forall a b s, r1 a b s = r2 a b s) ->
  forall best alpha beta s,
    minimise BM r1 moves best alpha beta s = minimise BM r2 moves best alpha beta s.
Proof.
  intros Hr. induction moves as [|move rest IH]; intros best alpha beta s.
  - reflexivity.
  - pose proof (Hr alpha beta (pushed move s)) as E1.
    destruct (r2 alpha beta (pushed move s)) as [[v|e|] s1] eqn:E2.
    + rewrite (minimise_step _ _ _ _ _ _ _ _ _ _ E1),
        (minimise_step _ _ _ _ _ _ _ _ _ _ E2). cbv zeta.
      destruct (score_leb _ alpha); [reflexivity|apply IH].
    + now rewrite (proj1 (minimise_fails _ _ _ _ _ _ _ _ _) _ E1),
        (proj1 (minimise_fails _ _ _ _ _ _ _ _ _) _ E2).
    + now rewrite (proj2 (minimise_fails _ _ _ _ _ _ _ _ _) E1),
        (proj2 (minimise_fails _ _ _ _ _ _ _ _ _) E2).
Qed.

Lemma minimax_below_zero (EV1 EV2 : Evaluator BM) fuel :
  forall d1 d2 alpha beta mx s,
    d1 < 0 -> d2 < 0 ->
    minimax BM EV1 ordered fuel d1 alpha beta mx s =
    minimax BM EV2 ordered fuel d2 alpha beta mx s.
Proof.
  induction fuel as [|fuel IH]; intros d1 d2 alpha beta mx s H1 H2.
  - reflexivity.
  - destruct (debug_info s !! "nodes"%string) as [n|] eqn:Hn.
    2:{ now rewrite !minimax_without_counter. }
    rewrite !(minimax_unfold _ _ _ _ _ _ _ _ _ n Hn). cbv zeta.
    destruct (Z.eqb_spec d1 0); [lia|]. destruct (Z.eqb_spec d2 0); [lia|].
    destruct (is_checkmate BM (board s)); [reflexivity|].
    destruct (is_game_over BM (board s)); [reflexivity|].
    destruct (ordered (board s)) as [moves|e]; [|reflexivity].
    destruct mx; [apply maximise_ext|apply minimise_ext];
      intros; apply IH; lia.
Qed.

Lemma root_loop_below_zero (EV1 EV2 : Evaluator BM) fuel d1 d2 mx moves :
  d1 <= 0 -> d2 <= 0 ->
  forall best s,
    root_loop BM EV1 ordered fuel d1 mx moves best s =
    root_loop BM EV2 ordered fuel d2 mx moves best s.
Proof.
  intros H1 H2. induction moves as [|move rest IH]; intros best s.
  - reflexivity.
  - rewrite !root_loop_step, !root_value_unfold.
    destruct (can_claim_draw BM _); [apply IH|].
    rewrite (minimax_below_zero EV1 EV2 fuel (d1 - 1) (d2 - 1)) by lia.
    destruct (minimax BM EV2 ordered fuel (d2 - 1) _ _ _ _) as [[v|e|] s1];
      try reflexivity.
    apply IH.
Qed.

Lemma minimax_root_below_zero (EV1 EV2 : Evaluator BM) fuel d1 d2 s :
  d1 <= 0 -> d2 <= 0 ->
  minimax_root BM EV1 ordered fuel d1 s = minimax_root BM EV2 ordered fuel d2 s.
Proof.
  intros H1 H2. rewrite !minimax_root_unfold, !minimax_root_scored_unfold.
  cbv zeta. destruct (ordered (board s)) as [[|first rest]|e]; try reflexivity.
  now rewrite (root_loop_below_zero EV1 EV2 fuel d1 d2).
Qed.
End NegativeDepth.

(** ** Termination

    With an orderer and an evaluator that return, and the counter in place,
    a search of depth [depth >= 0] returns with [depth + 1] nested calls. *)

Section Termination.
Variable BM : BoardModel.
Variable EV : Evaluator BM.
Variable ordered : Board BM -> result (list (Move BM)).
Hypothesis ordered_returns : forall b, exists moves, ordered b = Ok moves.
Hypothesis evaluator_returns : forall b, exists v, evaluate_board EV b = Ok v.

Lemma has_counter_counted (s : state BM) n : has_counter (counted s n).
Proof. unfold has_counter, counted. cbn. rewrite lookup_insert_eq. eauto. Qed.

Lemma maximise_returns recurse moves :
  (forall a b s, has_counter s ->
     exists v s', recurse a b s = (Return v, s') /\ has_counter s') ->
  forall best alpha beta s, has_counter s ->
    exists v s', maximise BM recurse moves best alpha beta s = (Return v, s')
                 /\ has_counter s'.
Proof.
  intros Hrec. induction moves as [|move rest IH]; intros best alpha beta s Hs.
  - exists best, s. split; [reflexivity|exact Hs].
  - destruct (Hrec alpha beta (pushed move s) Hs) as (v & s1 & E & Hs1).
    rewrite (maximise_step _ _ _ _ _ _ _ _ _ _ E). cbv zeta.
    destruct (score_leb beta _).
    + eexists _, _. split; [reflexivity|exact Hs1].
    + apply IH. exact Hs1.
Qed.

Lemma minimise_returns recurse moves :
  (forall a b s, has_counter s ->
     exists v s', recurse a b s = (Return v, s') /\ has_counter s') ->
  forall best alpha beta s, has_counter s ->
    exists v s', minimise BM recurse moves best alpha beta s = (Return v, s')
                 /\ has_counter s'.
Proof.
  intros Hrec. induction moves as [|move rest IH]; intros best alpha beta s Hs.
  - exists best, s. split; [reflexivity|exact Hs].
  - destruct (Hrec alpha beta (pushed move s) Hs) as (v & s1 & E & Hs1).
    rewrite (minimise_step _ _ _ _ _ _ _ _ _ _ E). cbv zeta.
    destruct (score_leb _ alpha).
    + eexists _, _. split; [reflexivity|exact Hs1].
    + apply IH. exact Hs1.
Qed.

Lemma minimax_returns fuel :
  forall depth alpha beta mx s,
    0 <= depth < Z.of_nat fuel -> has_counter s ->
    exists v s', minimax BM EV ordered fuel depth alpha beta mx s = (Return v, s')
                 /\ has_counter s'.
Proof.
  induction fuel as [|fuel IH]; intros depth alpha beta mx s Hd [n Hn]; [lia|].
  rewrite (minimax_unfold _ _ _ _ _ _ _ _ _ n Hn). cbv zeta.
  pose proof (has_counter_counted s n) as Hc.
  destruct (is_checkmate BM (board s)); [eauto|].
  destruct (is_game_over BM (board s)); [eauto|].
  destruct (Z.eqb_spec depth 0).
  - destruct (evaluator_returns (board s)) as [v ->]. eauto.
  - destruct (ordered_returns (board s)) as [moves ->].
    destruct mx; [apply maximise_returns|apply minimise_returns]; try exact Hc;
      intros; (apply IH; [lia|assumption]).
Qed.
Lemma root_value_returns fuel depth maximize move (s : state BM) :
  0 <= depth - 1 < Z.of_nat fuel -> has_counter s ->
  exists v s',
    root_value BM EV ordered fuel depth maximize move s = (Return v, s') /\
    has_counter s'.
Proof.
  intros Hd Hs. rewrite root_value_unfold.
  destruct (can_claim_draw BM (push BM move (board s))).
  - eexists _, _. split; [reflexivity|exact Hs].
  - destruct (minimax_returns fuel (depth - 1) NegInf PosInf (negb maximize)
                (pushed move s) Hd Hs) as (v & s' & E & Hs').
    rewrite E. eexists _, _. split; [reflexivity|exact Hs'].
Qed.

Lemma root_values_exist fuel depth maximize moves :
  0 <= depth - 1 < Z.of_nat fuel ->
  forall s, has_counter s ->
    exists values s',
      root_values BM EV ordered fuel depth maximize moves s values s'.
Proof.
  intros Hd. induction moves as [|move rest IH]; intros s Hs.
  - exists [], s. constructor.
  - destruct (root_value_returns fuel depth maximize move s Hd Hs)
      as (v & s1 & E & Hs1).
    destruct (IH s1 Hs1) as (values & s' & Hv).
    exists (v :: values), s'. econstructor; eassumption.
Qed.

Lemma next_move_returns depth (s : state BM) first rest :
  1 <= depth -> ordered (board s) = Ok (first :: rest) ->
  exists mv s',
    next_move BM EV ordered (Z.to_nat depth) depth s = (Return mv, s') /\
    In mv (first :: rest) /\ board s' = board s.
Proof.
  intros Hd Ho. rewrite next_move_unfold.
  set (t := mkState (board s) (<["nodes"%string := 0]> ∅) : state BM).
  assert (Ht : has_counter t)
    by (unfold has_counter, t; cbn; rewrite lookup_insert_eq; eauto).
  destruct (root_values_exist (Z.to_nat depth) depth
              (color_eqb (turn BM (board t)) WHITE) (first :: rest)
              ltac:(lia) t Ht) as (values & t' & Hv).
  rewrite minimax_root_unfold, minimax_root_scored_unfold. cbv zeta.
  change (board t) with (board s) in *. rewrite Ho.
  rewrite (root_loop_values _ _ _ _ _ _ _ _ _ _ _ Hv).
  eexists _, _. split; [reflexivity|]. split.
  - apply selection_member. eapply root_values_length. exact Hv.
  - assert (G : board t' = board t); [|exact G].
    apply (root_loop_restores BM EV ordered _ _ _ _ (NegInf, first) t t' _
             (root_loop_values BM EV ordered _ _ _ _ _ _ _ (NegInf, first) Hv)).
Qed.
End Termination.

(** ** The source's orderer *)

Section OrdererFacts.
Variable BM : BoardModel.
Variable EV : Evaluator BM.
Variable FT : Features BM.

(** A function of [(board, color)] called with the board alone. *)
Lemma call_without_color (f : Board BM -> color -> result Z) (b : Board BM) :
  call (board_color_function BM f) [VBoard b] = Err TypeError.
Proof. reflexivity. Qed.

Lemma call_with_color (f : Board BM -> color -> result Z) (b : Board BM) c :
  call (board_color_function BM f) [VBoard b; VColor c] = f b c.
Proof. reflexivity. Qed.

(** Line 103 raises in the first iteration of the loops. *)
Lemma material_term_raises (b : Board BM) piece c :
  material_term BM b piece c = Err AttributeError.
Proof. reflexivity. Qed.

Lemma evaluate_board_score_raises (b : Board BM) :
  evaluate_board_score BM b = Err AttributeError.
Proof. reflexivity. Qed.

(** Line 40 raises before the extractors are called. *)
Lemma get_ordered_moves_raises (b : Board BM) :
  get_ordered_moves BM EV FT b = Err AttributeError.
Proof. reflexivity. Qed.

Lemma evaluate_position_raises (b : Board BM) :
  evaluate_position BM FT b = Err AttributeError.
Proof. reflexivity. Qed.

(** *** The search with this orderer *)

Lemma minimax_root_scored_src fuel depth (s : state BM) :
  minimax_root_scored BM EV (get_ordered_moves BM EV FT) fuel depth s =
    (Raise AttributeError, s).
Proof.
  rewrite minimax_root_scored_unfold. cbv zeta.
  now rewrite get_ordered_moves_raises.
Qed.


Lemma minimax_root_src_raises fuel depth (s : state BM) :
  minimax_root_src BM EV FT fuel depth s = (Raise AttributeError, s).
Proof.
  unfold minimax_root_src. now rewrite minimax_root_unfold, minimax_root_scored_src.
Qed.

Lemma next_move_src_raises fuel depth (s : state BM) :
  next_move_src BM EV FT fuel depth s =
    (Raise AttributeError, mkState (board s) (<["nodes"%string := 0]> ∅)).
Proof.
  unfold next_move_src. rewrite next_move_unfold.
  apply (minimax_root_src_raises fuel depth
           (mkState (board s) (<["nodes"%string := 0]> ∅))).
Qed.




(** [sorted] returns the elements it was given. *)
Lemma with_keys_moves key (l : list (Move BM)) keyed :
  with_keys BM key l = Ok keyed -> map snd keyed = l.
Proof.
  revert keyed. induction l as [|x l IH]; intros keyed H; cbn in H.
  - now inversion H.
  - destruct (key x) as [k|e]; cbn in H; [|discriminate].
    destruct (with_keys BM key l) as [rest|e]; cbn in H; [|discriminate].
    inversion H; subst. cbn. f_equal. now apply IH.
Qed.

Lemma insert_keyed_permutation reverse x (acc : list (Z * Move BM)) :
  Permutation (insert_keyed BM reverse x acc) (x :: acc).
Proof.
  induction acc as [|y acc IH]; cbn.
  - reflexivity.
  - destruct (if reverse then x.1 <=? y.1 else y.1 <=? x.1).
    + rewrite IH. apply perm_swap.
    + reflexivity.
Qed.

Lemma sorted_permutation (l l' : list (Move BM)) key reverse :
  sorted BM l key reverse = Ok l' -> Permutation l' l.
Proof.
  unfold sorted. destruct (with_keys BM key l) as [keyed|e] eqn:E; cbn;
    [|discriminate].
  intros H; inversion H; subst. clear H.
  rewrite <- (with_keys_moves _ _ _ E).
  apply Permutation_map.
  assert (G : forall acc,
             Permutation
               (fold_left (fun acc x => insert_keyed BM reverse x acc) keyed acc)
               (keyed ++ acc)).
  { clear E. induction keyed as [|x keyed IH]; intros acc; cbn.
    - reflexivity.
    - rewrite IH, insert_keyed_permutation. symmetry. apply Permutation_middle. }
  rewrite G. now rewrite app_nil_r.
Qed.
End OrdererFacts.

(** ** Pruning without mate scores

    When no position is checkmate and the evaluator stays within the
    threshold, every score is ordinary, and the search with the cutoff
    returns what the full-width search returns. *)

Lemma rank_le a b : ordinary a -> ordinary b -> (score_le a b <-> rank a <= rank b).
Proof.
  unfold score_le, MATE_THRESHOLD.
  destruct a, b; cbn; unfold MATE_THRESHOLD; intros Ha Hb;
    rewrite ?Z.leb_le; split; intros; try lia; try reflexivity; try discriminate.
Qed.

Lemma rank_lt a b : ordinary a -> ordinary b -> (score_lt a b <-> rank a < rank b).
Proof.
  intros Ha Hb. unfold score_lt, score_ltb.
  pose proof (rank_le b a Hb Ha) as H. unfold score_le in H.
  destruct (score_leb b a); cbn; split; intros; try discriminate; try reflexivity.
  - assert (rank b <= rank a) by now apply H. lia.
  - destruct (Z.le_gt_cases (rank b) (rank a)) as [G|G]; [|lia].
    apply H in G. discriminate.
Qed.

Lemma rank_inj a b : ordinary a -> ordinary b -> rank a = rank b -> a = b.
Proof.
  destruct a, b; cbn; unfold MATE_THRESHOLD; intros; try lia; try reflexivity.
  f_equal; lia.
Qed.

Lemma rank_py_max a b : ordinary a -> ordinary b -> rank (py_max a b) = Z.max (rank a) (rank b).
Proof.
  intros Ha Hb. unfold py_max.
  pose proof (rank_lt a b Ha Hb) as H. unfold score_lt in H.
  destruct (score_ltb a b).
  - assert (rank a < rank b) by now apply H. lia.
  - destruct (Z.lt_ge_cases (rank a) (rank b)) as [G|G]; [|lia].
    apply H in G. discriminate.
Qed.

Lemma rank_py_min a b : ordinary a -> ordinary b -> rank (py_min a b) = Z.min (rank a) (rank b).
Proof.
  intros Ha Hb. unfold py_min.
  pose proof (rank_lt b a Hb Ha) as H. unfold score_lt in H.
  destruct (score_ltb b a).
  - assert (rank b < rank a) by now apply H. lia.
  - destruct (Z.lt_ge_cases (rank b) (rank a)) as [G|G]; [|lia].
    apply H in G. discriminate.
Qed.

Lemma ordinary_py_max a b : ordinary a -> ordinary b -> ordinary (py_max a b).
Proof. unfold py_max. now destruct (score_ltb a b). Qed.

Lemma ordinary_py_min a b : ordinary a -> ordinary b -> ordinary (py_min a b).
Proof. unfold py_min. now destruct (score_ltb b a). Qed.

Lemma mate_adjust_ordinary v : ordinary v -> mate_adjust v = v.
Proof.
  destruct v as [|z|]; try reflexivity. intros H. cbn in H.
  rewrite mate_adjust_finite, toward_zero_within; [reflexivity|exact H].
Qed.

Lemma bound_rank alpha beta f m :
  ordinary alpha -> ordinary beta -> ordinary f -> ordinary m ->
  (bound alpha beta f m <->
   (rank f <= rank alpha -> rank m <= rank f) /\
   (rank beta <= rank f -> rank f <= rank m) /\
   (rank alpha < rank f -> rank f < rank beta -> rank f = rank m)).
Proof.
  intros Ha Hb Hf Hm. unfold bound.
  rewrite !rank_le, !rank_lt by assumption.
  split; intros (H1 & H2 & H3); repeat split; auto.
  - intros. now rewrite (H3 H H0).
  - intros. apply rank_inj; auto.
Qed.

(** One iteration at a maximising node. *)
Lemma max_step alpha0 beta best bestF f m :
  ordinary alpha0 -> ordinary beta -> ordinary best -> ordinary bestF -> ordinary f -> ordinary m ->
  score_le bestF best ->
  (score_lt alpha0 best -> best = bestF) ->
  score_lt (py_max alpha0 best) beta ->
  bound (py_max alpha0 best) beta f m ->
  let best' := py_max best f in
  let bestF' := py_max bestF m in
  py_max (py_max alpha0 best) best' = py_max alpha0 best' /\
  (score_leb beta (py_max alpha0 best') = true ->
   forall M, ordinary M -> score_le bestF' M -> bound alpha0 beta best' M) /\
  (score_leb beta (py_max alpha0 best') = false ->
   score_le bestF' best' /\
   (score_lt alpha0 best' -> best' = bestF') /\
   score_lt (py_max alpha0 best') beta).
Proof.
  intros Qa Qb Qbest QbestF Qf Qm J I W B. cbv zeta.
  assert (Qab : ordinary (py_max alpha0 best)) by now apply ordinary_py_max.
  assert (Qb' : ordinary (py_max best f)) by now apply ordinary_py_max.
  assert (QF' : ordinary (py_max bestF m)) by now apply ordinary_py_max.
  assert (Qab' : ordinary (py_max alpha0 (py_max best f))) by now apply ordinary_py_max.
  apply bound_rank in B; try assumption.
  apply rank_le in J; try assumption.
  apply rank_lt in W; try assumption.
  assert (I' : rank alpha0 < rank best -> rank best = rank bestF).
  { intros H. apply rank_lt in H; try assumption. now rewrite (I H). }
  clear I. rewrite !rank_py_max in * by assumption.
  split; [|split].
  - apply rank_inj; try (now apply ordinary_py_max).
    rewrite !rank_py_max by (try assumption; now apply ordinary_py_max). lia.
  - intros C M QM HM. fold (score_le beta (py_max alpha0 (py_max best f))) in C.
    apply rank_le in C; try assumption. apply rank_le in HM; try assumption.
    rewrite !rank_py_max in * by assumption.
    apply bound_rank; try assumption. rewrite !rank_py_max by assumption. lia.
  - intros C. apply score_leb_false_lt in C. apply rank_lt in C; try assumption.
    rewrite !rank_py_max in * by assumption.
    split; [|split].
    + apply rank_le; try assumption. rewrite !rank_py_max by assumption. lia.
    + intros H. apply rank_lt in H; try assumption.
      rewrite !rank_py_max in * by assumption.
      apply rank_inj; try assumption. rewrite !rank_py_max by assumption. lia.
    + apply rank_lt; try assumption. rewrite !rank_py_max by assumption. lia.
Qed.

(** The end of the loop at a maximising node. *)
Lemma max_end alpha0 beta best bestF :
  ordinary alpha0 -> ordinary beta -> ordinary best -> ordinary bestF ->
  score_le bestF best ->
  (score_lt alpha0 best -> best = bestF) ->
  score_lt (py_max alpha0 best) beta ->
  bound alpha0 beta best bestF.
Proof.
  intros Qa Qb Qbest QbestF J I W.
  apply rank_le in J; try assumption.
  apply rank_lt in W; try assumption; [|now apply ordinary_py_max].
  rewrite rank_py_max in W by assumption.
  apply bound_rank; try assumption. repeat split; try lia.
  intros H _. apply rank_lt in H; try assumption. now rewrite (I H).
Qed.

(** One iteration at a minimising node. *)
Lemma min_step alpha beta0 best bestF f m :
  ordinary alpha -> ordinary beta0 -> ordinary best -> ordinary bestF -> ordinary f -> ordinary m ->
  score_le best bestF ->
  (score_lt best beta0 -> best = bestF) ->
  score_lt alpha (py_min beta0 best) ->
  bound alpha (py_min beta0 best) f m ->
  let best' := py_min best f in
  let bestF' := py_min bestF m in
  py_min (py_min beta0 best) best' = py_min beta0 best' /\
  (score_leb (py_min beta0 best') alpha = true ->
   forall M, ordinary M -> score_le M bestF' -> bound alpha beta0 best' M) /\
  (score_leb (py_min beta0 best') alpha = false ->
   score_le best' bestF' /\
   (score_lt best' beta0 -> best' = bestF') /\
   score_lt alpha (py_min beta0 best')).
Proof.
  intros Qa Qb Qbest QbestF Qf Qm J I W B. cbv zeta.
  assert (Qab : ordinary (py_min beta0 best)) by now apply ordinary_py_min.
  assert (Qb' : ordinary (py_min best f)) by now apply ordinary_py_min.
  assert (QF' : ordinary (py_min bestF m)) by now apply ordinary_py_min.
  assert (Qab' : ordinary (py_min beta0 (py_min best f))) by now apply ordinary_py_min.
  apply bound_rank in B; try assumption.
  apply rank_le in J; try assumption.
  apply rank_lt in W; try assumption.
  assert (I' : rank best < rank beta0 -> rank best = rank bestF).
  { intros H. apply rank_lt in H; try assumption. now rewrite (I H). }
  clear I. rewrite !rank_py_min in * by assumption.
  split; [|split].
  - apply rank_inj; try (now apply ordinary_py_min).
    rewrite !rank_py_min by (try assumption; now apply ordinary_py_min). lia.
  - intros C M QM HM. fold (score_le (py_min beta0 (py_min best f)) alpha) in C.
    apply rank_le in C; try assumption. apply rank_le in HM; try assumption.
    rewrite !rank_py_min in * by assumption.
    apply bound_rank; try assumption. rewrite !rank_py_min by assumption. lia.
  - intros C. apply score_leb_false_lt in C. apply rank_lt in C; try assumption.
    rewrite !rank_py_min in * by assumption.
    split; [|split].
    + apply rank_le; try assumption. rewrite !rank_py_min by assumption. lia.
    + intros H. apply rank_lt in H; try assumption.
      rewrite !rank_py_min in * by assumption.
      apply rank_inj; try assumption. rewrite !rank_py_min by assumption. lia.
    + apply rank_lt; try assumption. rewrite !rank_py_min by assumption. lia.
Qed.

Lemma min_end alpha beta0 best bestF :
  ordinary alpha -> ordinary beta0 -> ordinary best -> ordinary bestF ->
  score_le best bestF ->
  (score_lt best beta0 -> best = bestF) ->
  score_lt alpha (py_min beta0 best) ->
  bound alpha beta0 best bestF.
Proof.
  intros Qa Qb Qbest QbestF J I W.
  apply rank_le in J; try assumption.
  apply rank_lt in W; try assumption; [|now apply ordinary_py_min].
  rewrite rank_py_min in W by assumption.
  apply bound_rank; try assumption. repeat split; try lia.
  intros _ H. apply rank_lt in H; try assumption. now rewrite (I H).
Qed.

(** With the full window the value is exact. *)
Lemma bound_full_window f m : ordinary f -> ordinary m -> bound NegInf PosInf f m -> f = m.
Proof.
  intros Qf Qm B. apply bound_rank in B; try assumption; try exact I.
  apply rank_inj; try assumption. cbn in B. unfold MATE_THRESHOLD in *.
  destruct f, m; cbn in *; unfold MATE_THRESHOLD in *; lia.
Qed.

Lemma bound_refl alpha beta f : bound alpha beta f f.
Proof. unfold bound. auto using score_le_refl. Qed.

Lemma score_le_py_max_l a b : score_le a (py_max a b).
Proof. unfold score_le. score_cases. Qed.

Lemma score_le_py_min_l a b : score_le (py_min a b) a.
Proof. unfold score_le. score_cases. Qed.

Lemma py_min_PosInf b : py_min b PosInf = b.
Proof. now destruct b. Qed.

Lemma not_lt_NegInf a : ~ score_lt a NegInf.
Proof. unfold score_lt. now destruct a. Qed.

Lemma not_PosInf_lt a : ~ score_lt PosInf a.
Proof. unfold score_lt. now destruct a. Qed.

Section Pruning.
Variable BM : BoardModel.
Variable EV : Evaluator BM.
Variable ordered : Board BM -> result (list (Move BM)).
Hypothesis no_checkmate : forall b, is_checkmate BM b = false.
Hypothesis evaluator_bounded :
  forall b v, evaluate_board EV b = Ok v -> - MATE_THRESHOLD <= v <= MATE_THRESHOLD.

Lemma minimax_full_unfold fuel depth mx (s : state BM) :
  minimax_full BM EV ordered (S fuel) depth mx s =
    match debug_info s !! "nodes"%string with
    | None => (Raise KeyError, s)
    | Some n =>
        let b := board s in
        let s' := counted s n in
        if is_checkmate BM b then
          (Return (Finite (if mx then - MATE_SCORE else MATE_SCORE)), s')
        else if is_game_over BM b then (Return (Finite 0), s')
        else if depth =? 0 then
          match evaluate_board EV b with
          | Ok v => (Return (Finite v), s')
          | Err e => (Raise e, s')
          end
        else
          match ordered b with
          | Err e => (Raise e, s')
          | Ok moves =>
              if mx then
                maximise_full BM (minimax_full BM EV ordered fuel (depth - 1) (negb mx))
                  moves NegInf s'
              else
                minimise_full BM (minimax_full BM EV ordered fuel (depth - 1) (negb mx))
                  moves PosInf s'
          end
    end.
Proof.
  cbn [minimax_full]. unfold bind at 1. unfold count_node at 1.
  destruct (debug_info s !! "nodes"%string) as [n|]; [|reflexivity].
  unfold bind at 1. unfold get_board at 1. cbn [board]. cbv zeta. unfold counted.
  destruct (is_checkmate BM (board s)); [reflexivity|].
  destruct (is_game_over BM (board s)); [reflexivity|].
  destruct (depth =? 0).
  - unfold bind, lift, ret, raise. now destruct (evaluate_board EV (board s)).
  - destruct mx; unfold bind at 1; unfold lift, ret, raise;
      now destruct (ordered (board s)).
Qed.

Lemma maximise_full_step recurse move rest best (s : state BM) :
  maximise_full BM recurse (move :: rest) best s =
    match recurse (pushed move s) with
    | (Return v, s1) =>
        maximise_full BM recurse rest (py_max best (mate_adjust v)) (popped s1)
    | (Raise e, s1) => (Raise e, s1)
    | (OutOfFuel, s1) => (OutOfFuel, s1)
    end.
Proof.
  cbn [maximise_full]. unfold bind at 1. unfold board_push at 1.
  fold (pushed move s). unfold bind at 1.
  destruct (recurse (pushed move s)) as [[v|e|] s1]; reflexivity.
Qed.

Lemma minimise_full_step recurse move rest best (s : state BM) :
  minimise_full BM recurse (move :: rest) best s =
    match recurse (pushed move s) with
    | (Return v, s1) =>
        minimise_full BM recurse rest (py_min best (mate_adjust v)) (popped s1)
    | (Raise e, s1) => (Raise e, s1)
    | (OutOfFuel, s1) => (OutOfFuel, s1)
    end.
Proof.
  cbn [minimise_full]. unfold bind at 1. unfold board_push at 1.
  fold (pushed move s). unfold bind at 1.
  destruct (recurse (pushed move s)) as [[v|e|] s1]; reflexivity.
Qed.

Lemma board_popped_pushed move (s s' : state BM) :
  board s' = board (pushed move s) -> board (popped s') = board s.
Proof. intros H. unfold popped; cbn. rewrite H. cbn. apply pop_push. Qed.

Lemma maximise_prunes recF rec :
  prunes recF rec ->
  forall moves bestF s M s1,
    maximise_full BM recF moves bestF s = (Return M, s1) -> ordinary bestF ->
    ordinary M /\ board s1 = board s /\ score_le bestF M /\
    (has_counter s -> has_counter s1) /\
    forall alpha0 beta best t,
      board t = board s -> has_counter t ->
      ordinary alpha0 -> ordinary beta -> ordinary best ->
      score_le bestF best -> (score_lt alpha0 best -> best = bestF) ->
      score_lt (py_max alpha0 best) beta ->
      exists f t1,
        maximise BM rec moves best (py_max alpha0 best) beta t = (Return f, t1) /\
        board t1 = board t /\ has_counter t1 /\ ordinary f /\ bound alpha0 beta f M.
Proof.
  intros Hp. induction moves as [|move rest IH]; intros bestF s M s1 H QF.
  - cbn in H. unfold ret in H. inversion H; subst.
    split; [exact QF|]. split; [reflexivity|]. split; [apply score_le_refl|].
    split; [auto|].
    intros alpha0 beta best t Hb Hc Qa Qb Qbest J I W.
    exists best, t. split; [reflexivity|]. split; [reflexivity|].
    split; [assumption|]. split; [assumption|]. now apply max_end.
  - rewrite maximise_full_step in H.
    destruct (recF (pushed move s)) as [[m|e|] s'] eqn:E; try discriminate.
    destruct (Hp _ _ _ E) as (Qm & Hbs' & _ & Hcs' & Hc).
    rewrite (mate_adjust_ordinary _ Qm) in H.
    destruct (IH _ _ _ _ H (ordinary_py_max _ _ QF Qm)) as (QM & Hbs1 & HleM & Hcs1 & IHp).
    pose proof (board_popped_pushed _ _ _ Hbs') as Hpop.
    split; [exact QM|]. split; [now rewrite Hbs1|].
    split; [eapply score_le_trans; [apply score_le_py_max_l|exact HleM]|].
    split; [intros _; apply Hcs1; exact Hcs'|].
    intros alpha0 beta best t Hb Hct Qa Qb Qbest J I W.
    destruct (Hc (py_max alpha0 best) beta (pushed move t))
      as (f & t' & Ef & Hbt' & Hct' & Qf & B); auto using ordinary_py_max.
    { cbn. now rewrite Hb. }
    rewrite (maximise_step BM _ _ _ _ _ _ _ _ _ Ef). cbv zeta.
    rewrite (mate_adjust_ordinary _ Qf).
    destruct (max_step alpha0 beta best bestF f m Qa Qb Qbest QF Qf Qm J I W B)
      as (Ha & Hcut & Hgo).
    rewrite Ha.
    pose proof (board_popped_pushed _ _ _ Hbt') as Hpopt.
    destruct (score_leb beta (py_max alpha0 (py_max best f))) eqn:C.
    * exists (py_max best f), (popped t'). split; [reflexivity|].
      split; [exact Hpopt|]. split; [exact Hct'|].
      split; [now apply ordinary_py_max|].
      apply (Hcut eq_refl); [exact QM|exact HleM].
    * destruct (Hgo eq_refl) as (J' & I' & W').
      destruct (IHp alpha0 beta (py_max best f) (popped t'))
        as (f' & t1 & E' & Hb1 & Hc1 & Qf' & B'); auto using ordinary_py_max.
      { now rewrite Hpopt, Hpop. }
      exists f', t1. split; [exact E'|]. split; [now rewrite Hb1|].
      split; [exact Hc1|]. split; [exact Qf'|exact B'].
Qed.

Lemma minimise_prunes recF rec :
  prunes recF rec ->
  forall moves bestF s M s1,
    minimise_full BM recF moves bestF s = (Return M, s1) -> ordinary bestF ->
    ordinary M /\ board s1 = board s /\ score_le M bestF /\
    (has_counter s -> has_counter s1) /\
    forall alpha beta0 best t,
      board t = board s -> has_counter t ->
      ordinary alpha -> ordinary beta0 -> ordinary best ->
      score_le best bestF -> (score_lt best beta0 -> best = bestF) ->
      score_lt alpha (py_min beta0 best) ->
      exists f t1,
        minimise BM rec moves best alpha (py_min beta0 best) t = (Return f, t1) /\
        board t1 = board t /\ has_counter t1 /\ ordinary f /\ bound alpha beta0 f M.
Proof.
  intros Hp. induction moves as [|move rest IH]; intros bestF s M s1 H QF.
  - cbn in H. unfold ret in H. inversion H; subst.
    split; [exact QF|]. split; [reflexivity|]. split; [apply score_le_refl|].
    split; [auto|].
    intros alpha beta0 best t Hb Hc Qa Qb Qbest J I W.
    exists best, t. split; [reflexivity|]. split; [reflexivity|].
    split; [assumption|]. split; [assumption|]. now apply min_end.
  - rewrite minimise_full_step in H.
    destruct (recF (pushed move s)) as [[m|e|] s'] eqn:E; try discriminate.
    destruct (Hp _ _ _ E) as (Qm & Hbs' & _ & Hcs' & Hc).
    rewrite (mate_adjust_ordinary _ Qm) in H.
    destruct (IH _ _ _ _ H (ordinary_py_min _ _ QF Qm)) as (QM & Hbs1 & HleM & Hcs1 & IHp).
    pose proof (board_popped_pushed _ _ _ Hbs') as Hpop.
    split; [exact QM|]. split; [now rewrite Hbs1|].
    split; [eapply score_le_trans; [exact HleM|apply score_le_py_min_l]|].
    split; [intros _; apply Hcs1; exact Hcs'|].
    intros alpha beta0 best t Hb Hct Qa Qb Qbest J I W.
    destruct (Hc alpha (py_min beta0 best) (pushed move t))
      as (f & t' & Ef & Hbt' & Hct' & Qf & B); auto using ordinary_py_min.
    { cbn. now rewrite Hb. }
    rewrite (minimise_step BM _ _ _ _ _ _ _ _ _ Ef). cbv zeta.
    rewrite (mate_adjust_ordinary _ Qf).
    destruct (min_step alpha beta0 best bestF f m Qa Qb Qbest QF Qf Qm J I W B)
      as (Ha & Hcut & Hgo).
    rewrite Ha.
    pose proof (board_popped_pushed _ _ _ Hbt') as Hpopt.
    destruct (score_leb (py_min beta0 (py_min best f)) alpha) eqn:C.
    * exists (py_min best f), (popped t'). split; [reflexivity|].
      split; [exact Hpopt|]. split; [exact Hct'|].
      split; [now apply ordinary_py_min|].
      apply (Hcut eq_refl); [exact QM|exact HleM].
    * destruct (Hgo eq_refl) as (J' & I' & W').
      destruct (IHp alpha beta0 (py_min best f) (popped t'))
        as (f' & t1 & E' & Hb1 & Hc1 & Qf' & B'); auto using ordinary_py_min.
      { now rewrite Hpopt, Hpop. }
      exists f', t1. split; [exact E'|]. split; [now rewrite Hb1|].
      split; [exact Hc1|]. split; [exact Qf'|exact B'].
Qed.
Lemma minimax_prunes fuel :
  forall depth mx,
    prunes (minimax_full BM EV ordered fuel depth mx)
      (fun alpha beta => minimax BM EV ordered fuel depth alpha beta mx).
Proof.
  induction fuel as [|fuel IH]; intros depth mx s m s1 H; [discriminate|].
  rewrite minimax_full_unfold in H.
  destruct (debug_info s !! "nodes"%string) as [n|] eqn:Hn; [|discriminate].
  cbv zeta in H. rewrite no_checkmate in H.
  assert (Hs : has_counter s) by (unfold has_counter; rewrite Hn; eauto).
  assert (Hcn : has_counter (counted s n))
    by (unfold has_counter, counted; cbn; rewrite lookup_insert_eq; eauto).
  assert (Hleaf : forall v : score,
             ordinary v -> (Return m, s1) = (Return v, counted s n) ->
             (forall alpha beta (t : state BM) k,
                 board t = board s -> debug_info t !! "nodes"%string = Some k ->
                 minimax BM EV ordered (S fuel) depth alpha beta mx t
                 = (Return v, counted t k)) ->
             ordinary m /\ board s1 = board s /\ has_counter s /\ has_counter s1 /\
             forall alpha beta t,
               board t = board s -> has_counter t ->
               ordinary alpha -> ordinary beta -> score_lt alpha beta ->
               exists f t1,
                 minimax BM EV ordered (S fuel) depth alpha beta mx t = (Return f, t1) /\
                 board t1 = board t /\ has_counter t1 /\ ordinary f /\
                 bound alpha beta f m).
  { intros v Qv Hr Ht. inversion Hr; subst.
    split; [exact Qv|]. split; [reflexivity|]. split; [exact Hs|].
    split; [exact Hcn|].
    intros alpha beta t Hb [k Hk] _ _ _.
    exists v, (counted t k). split; [now apply Ht|]. split; [reflexivity|].
    split; [unfold has_counter, counted; cbn; rewrite lookup_insert_eq; eauto|].
    split; [exact Qv|apply bound_refl]. }
  destruct (is_game_over BM (board s)) eqn:Hg.
  { apply (Hleaf (Finite 0)); [cbn; unfold MATE_THRESHOLD; lia|now symmetry|].
    intros alpha beta t k Hb Hk.
    rewrite (minimax_unfold _ _ _ _ _ _ _ _ _ k Hk). cbv zeta.
    now rewrite Hb, no_checkmate, Hg. }
  destruct (Z.eqb_spec depth 0) as [Hd|Hd].
  { destruct (evaluate_board EV (board s)) as [v|e] eqn:Ev; [|discriminate].
    apply (Hleaf (Finite v)); [exact (evaluator_bounded _ _ Ev)|now symmetry|].
    intros alpha beta t k Hb Hk.
    rewrite (minimax_unfold _ _ _ _ _ _ _ _ _ k Hk). cbv zeta.
    rewrite Hb, no_checkmate, Hg, Ev.
    now destruct (Z.eqb_spec depth 0). }
  clear Hleaf.
  destruct (ordered (board s)) as [moves|e] eqn:Ho; [|discriminate].
  destruct mx.
  - destruct (maximise_prunes _ _ (IH (depth - 1) (negb true)) _ _ _ _ _ H I)
      as (Qm & Hb1 & _ & Hc1 & Hp).
    split; [exact Qm|]. split; [exact Hb1|]. split; [exact Hs|].
    split; [exact (Hc1 Hcn)|].
    intros alpha beta t Hb [k Hk] Qa Qb W.
    rewrite (minimax_unfold _ _ _ _ _ _ _ _ _ k Hk). cbv zeta.
    assert (Hg' : is_game_over BM (board t) = false) by now rewrite Hb.
    assert (Ho' : ordered (board t) = Ok moves) by now rewrite Hb.
    rewrite no_checkmate, Hg', Ho'.
    destruct (Z.eqb_spec depth 0); [contradiction|].
    assert (Hck : has_counter (counted t k))
      by (unfold has_counter, counted; cbn; rewrite lookup_insert_eq; eauto).
    assert (Hvac : score_lt alpha NegInf -> NegInf = NegInf) by reflexivity.
    destruct (Hp alpha beta NegInf (counted t k) Hb Hck Qa Qb I
                (score_le_refl _) Hvac W)
      as (f & t1 & E & Hbt & Hct & Qf & B).
    exists f, t1. split; [exact E|]. split; [now rewrite Hbt|].
    split; [exact Hct|]. split; [exact Qf|exact B].
  - destruct (minimise_prunes _ _ (IH (depth - 1) (negb false)) _ _ _ _ _ H I)
      as (Qm & Hb1 & _ & Hc1 & Hp).
    split; [exact Qm|]. split; [exact Hb1|]. split; [exact Hs|].
    split; [exact (Hc1 Hcn)|].
    intros alpha beta t Hb [k Hk] Qa Qb W.
    rewrite (minimax_unfold _ _ _ _ _ _ _ _ _ k Hk). cbv zeta.
    assert (Hg' : is_game_over BM (board t) = false) by now rewrite Hb.
    assert (Ho' : ordered (board t) = Ok moves) by now rewrite Hb.
    rewrite no_checkmate, Hg', Ho'.
    destruct (Z.eqb_spec depth 0); [contradiction|].
    assert (Hck : has_counter (counted t k))
      by (unfold has_counter, counted; cbn; rewrite lookup_insert_eq; eauto).
    assert (Hvac : score_lt PosInf beta -> PosInf = PosInf) by reflexivity.
    assert (W' : score_lt alpha (py_min beta PosInf)) by now rewrite py_min_PosInf.
    destruct (Hp alpha beta PosInf (counted t k) Hb Hck Qa Qb I
                (score_le_refl _) Hvac W')
      as (f & t1 & E & Hbt & Hct & Qf & B).
    rewrite py_min_PosInf in E.
    exists f, t1. split; [exact E|]. split; [now rewrite Hbt|].
    split; [exact Hct|]. split; [exact Qf|exact B].
Qed.
Lemma root_value_full_unfold fuel depth maximize move (s : state BM) :
  root_value_full BM EV ordered fuel depth maximize move s =
    if can_claim_draw BM (push BM move (board s)) then
      (Return (Finite 0), popped (pushed move s))
    else
      match minimax_full BM EV ordered fuel (depth - 1) (negb maximize)
              (pushed move s) with
      | (Return value, s1) => (Return value, popped s1)
      | (Raise e, s1) => (Raise e, s1)
      | (OutOfFuel, s1) => (OutOfFuel, s1)
      end.
Proof.
  unfold root_value_full. unfold bind at 1. unfold board_push at 1.
  fold (pushed move s). unfold bind at 1. unfold get_board at 1.
  cbn [board pushed].
  destruct (can_claim_draw BM (push BM move (board s))).
  - reflexivity.
  - unfold bind at 1.
    destruct (minimax_full BM EV ordered fuel (depth - 1) (negb maximize)
                (pushed move s)) as [[value|e|] s1]; reflexivity.
Qed.

Lemma root_value_prunes fuel depth maximize move (s s1 t : state BM) v :
  root_value_full BM EV ordered fuel depth maximize move s = (Return v, s1) ->
  board t = board s -> (has_counter s -> has_counter t) ->
  exists t1,
    root_value BM EV ordered fuel depth maximize move t = (Return v, t1) /\
    board t1 = board s1 /\ (has_counter s1 -> has_counter t1).
Proof.
  intros H Hb Hc. rewrite root_value_full_unfold in H.
  rewrite root_value_unfold, Hb.
  destruct (can_claim_draw BM (push BM move (board s))).
  - inversion H; subst. eexists. split; [reflexivity|].
    split; [cbn; now rewrite Hb|exact Hc].
  - destruct (minimax_full BM EV ordered fuel (depth - 1) (negb maximize)
                (pushed move s)) as [[m|e|] s'] eqn:E; try discriminate.
    inversion H; subst. clear H.
    destruct (minimax_prunes _ _ _ _ _ _ E) as (Qm & Hbs' & Hcs & _ & Hp).
    destruct (Hp NegInf PosInf (pushed move t)) as (f & t' & Ef & Hbt' & Hct' & Qf & B);
      try exact I; try reflexivity.
    { cbn. now rewrite Hb. }
    { apply Hc. exact Hcs. }
    rewrite Ef. rewrite (bound_full_window f v Qf Qm B).
    eexists. split; [reflexivity|]. split; [|intros _; exact Hct'].
    cbn. rewrite Hbt', Hbs'. cbn. now rewrite Hb.
Qed.

Lemma root_loop_full_step fuel depth maximize move rest best (s : state BM) :
  root_loop_full BM EV ordered fuel depth maximize (move :: rest) best s =
    match root_value_full BM EV ordered fuel depth maximize move s with
    | (Return value, s1) =>
        root_loop_full BM EV ordered fuel depth maximize rest
          (root_select BM maximize best value move) s1
    | (Raise e, s1) => (Raise e, s1)
    | (OutOfFuel, s1) => (OutOfFuel, s1)
    end.
Proof. reflexivity. Qed.

Lemma root_loop_prunes fuel depth maximize moves :
  forall best (s s1 t : state BM) r,
    root_loop_full BM EV ordered fuel depth maximize moves best s = (Return r, s1) ->
    board t = board s -> (has_counter s -> has_counter t) ->
    exists t1,
      root_loop BM EV ordered fuel depth maximize moves best t = (Return r, t1) /\
      board t1 = board s1.
Proof.
  induction moves as [|move rest IH]; intros best s s1 t r H Hb Hc.
  - cbn in H. unfold ret in H. inversion H; subst. now exists t.
  - rewrite root_loop_full_step in H.
    destruct (root_value_full BM EV ordered fuel depth maximize move s)
      as [[v|e|] s'] eqn:E; try discriminate.
    destruct (root_value_prunes _ _ _ _ _ _ _ _ E Hb Hc) as (t' & Et & Hbt' & Hct').
    rewrite root_loop_step, Et. eapply IH; eassumption.
Qed.

Lemma minimax_root_prunes fuel depth (s s1 : state BM) r :
  minimax_root_full BM EV ordered fuel depth s = (Return r, s1) ->
  exists s2,
    minimax_root_scored BM EV ordered fuel depth s = (Return r, s2) /\
    board s2 = board s1.
Proof.
  intros H. rewrite minimax_root_scored_unfold. cbv zeta.
  unfold minimax_root_full in H. unfold bind at 1 in H.
  unfold get_board at 1 in H. cbv zeta in H. unfold bind at 1 in H.
  unfold lift in H.
  destruct (ordered (board s)) as [[|first rest]|e]; try discriminate.
  eapply root_loop_prunes; [exact H|reflexivity|auto].
Qed.
End Pruning.

(** * The specification, claim by claim *)

(** C5.  [minimax] tests for the end of the game before it looks at the depth
    or asks for moves: in a checkmate position it returns [-MATE_SCORE] when
    maximising and [MATE_SCORE] when minimising, in any other finished game
    it returns 0, and only otherwise, at depth 0, it returns what the static
    evaluator gives, unchanged (its exception included).  This holds for every
    depth, orderer and evaluator; the node counter is assumed to exist, as
    after [next_move]. *)
Theorem minimax_terminal_checks BM (EV : Evaluator BM) ordered fuel depth
    alpha beta mx (s : state BM) n :
  debug_info s !! "nodes"%string = Some n ->
  (is_checkmate BM (board s) = true ->
   minimax BM EV ordered (S fuel) depth alpha beta mx s =
     (Return (Finite (if mx then - MATE_SCORE else MATE_SCORE)), counted s n)) /\
  (is_checkmate BM (board s) = false -> is_game_over BM (board s) = true ->
   minimax BM EV ordered (S fuel) depth alpha beta mx s =
     (Return (Finite 0), counted s n)) /\
  (is_checkmate BM (board s) = false -> is_game_over BM (board s) = false ->
   depth = 0 ->
   minimax BM EV ordered (S fuel) depth alpha beta mx s =
     match evaluate_board EV (board s) with
     | Ok v => (Return (Finite v), counted s n)
     | Err e => (Raise e, counted s n)
     end).
Proof.
  intros Hn. rewrite (minimax_unfold _ _ _ _ _ _ _ _ _ n Hn). cbv zeta.
  repeat split.
  - now intros ->.
  - now intros -> ->.
  - now intros -> -> ->.
Qed.

Lemma minimax_terminal_checks_witness :
  minimax tree_model raising_eval raising_ordered 1 0 NegInf PosInf true
    (tree_started WHITE Checkmate)
  = (Return (Finite (- MATE_SCORE)), counted (tree_started WHITE Checkmate) 0) /\
  minimax tree_model raising_eval raising_ordered 1 3 NegInf PosInf false
    (tree_started WHITE GameOver)
  = (Return (Finite 0), counted (tree_started WHITE GameOver) 0) /\
  minimax tree_model tree_eval raising_ordered 1 0 NegInf PosInf true
    (tree_started WHITE quiet)
  = (Return (Finite 30), counted (tree_started WHITE quiet) 0).
Proof.
  split; [|split].
  - apply (minimax_terminal_checks tree_model raising_eval raising_ordered 0 0
             NegInf PosInf true (tree_started WHITE Checkmate) 0); reflexivity.
  - apply (minimax_terminal_checks tree_model raising_eval raising_ordered 0 3
             NegInf PosInf false (tree_started WHITE GameOver) 0); reflexivity.
  - apply (minimax_terminal_checks tree_model tree_eval raising_ordered 0 0
             NegInf PosInf true (tree_started WHITE quiet) 0); reflexivity.
Defined.

(** C6.  At an interior node [minimax] runs the maximising or the minimising
    loop; in both, the integer score [z] a recursive call returns enters the
    running maximum or minimum as [toward_zero z]: one less when it is above
    [MATE_THRESHOLD], one more when it is below [-MATE_THRESHOLD], and [z]
    itself otherwise. *)
Theorem mate_distance_adjustment BM (EV : Evaluator BM) ordered fuel depth
    alpha beta move rest best (s s1 : state BM) z :
  (forall mx n moves (s0 : state BM),
     debug_info s0 !! "nodes"%string = Some n ->
     is_checkmate BM (board s0) = false -> is_game_over BM (board s0) = false ->
     depth <> 0 -> ordered (board s0) = Ok moves ->
     minimax BM EV ordered (S fuel) depth alpha beta mx s0 =
       if mx then
         maximise BM (fun a b => minimax BM EV ordered fuel (depth - 1) a b false)
           moves NegInf alpha beta (counted s0 n)
       else
         minimise BM (fun a b => minimax BM EV ordered fuel (depth - 1) a b true)
           moves PosInf alpha beta (counted s0 n)) /\
  (minimax BM EV ordered fuel (depth - 1) alpha beta false (pushed move s)
     = (Return (Finite z), s1) ->
   maximise BM (fun a b => minimax BM EV ordered fuel (depth - 1) a b false)
     (move :: rest) best alpha beta s =
     let best' := py_max best (Finite (toward_zero z)) in
     let alpha' := py_max alpha best' in
     if score_leb beta alpha' then (Return best', popped s1)
     else maximise BM (fun a b => minimax BM EV ordered fuel (depth - 1) a b false)
            rest best' alpha' beta (popped s1)) /\
  (minimax BM EV ordered fuel (depth - 1) alpha beta true (pushed move s)
     = (Return (Finite z), s1) ->
   minimise BM (fun a b => minimax BM EV ordered fuel (depth - 1) a b true)
     (move :: rest) best alpha beta s =
     let best' := py_min best (Finite (toward_zero z)) in
     let beta' := py_min beta best' in
     if score_leb beta' alpha then (Return best', popped s1)
     else minimise BM (fun a b => minimax BM EV ordered fuel (depth - 1) a b true)
            rest best' alpha beta' (popped s1)) /\
  (MATE_THRESHOLD < z -> toward_zero z = z - 1) /\
  (z < - MATE_THRESHOLD -> toward_zero z = z + 1) /\
  (- MATE_THRESHOLD <= z <= MATE_THRESHOLD -> toward_zero z = z).
Proof.
  split; [|split; [|split; [|split; [|split]]]].
  - intros mx n moves s0 Hn Hc Hg Hd Ho.
    rewrite (minimax_unfold _ _ _ _ _ _ _ _ _ n Hn). cbv zeta.
    rewrite Hc, Hg, Ho. destruct (Z.eqb_spec depth 0); [contradiction|].
    now destruct mx.
  - intros E.
    rewrite (maximise_step BM _ _ _ _ _ _ _ _ _ E), mate_adjust_finite.
    reflexivity.
  - intros E.
    rewrite (minimise_step BM _ _ _ _ _ _ _ _ _ E), mate_adjust_finite.
    reflexivity.
  - apply toward_zero_above.
  - apply toward_zero_below.
  - apply toward_zero_within.
Qed.

(** White is about to mate: the reply position is checkmate, the call on it
    returns [MATE_SCORE], and [MATE_SCORE - 1] is what the loop keeps. *)
Lemma mate_distance_adjustment_witness :
  maximise tree_model
    (fun a b => minimax tree_model tree_eval tree_ordered 1 (1 - 1) a b false)
    [0%nat] NegInf NegInf PosInf (tree_started WHITE (mate_in 1))
  = (Return (Finite (MATE_SCORE - 1)),
     mkState (mkTreeBoard WHITE (mate_in 1) [] : Board tree_model)
       (<["nodes"%string := 1]> ∅)) /\
  toward_zero MATE_SCORE = MATE_SCORE - 1.
Proof.
  pose proof (mate_distance_adjustment tree_model tree_eval tree_ordered 1 1
                NegInf PosInf 0%nat [] NegInf (tree_started WHITE (mate_in 1))
                (mkState (mkTreeBoard BLACK Checkmate [mate_in 1] : Board tree_model)
                   (<["nodes"%string := 1]> ∅))
                MATE_SCORE) as (_ & Hmax & _ & Habove & _ & _).
  split.
  - refine (eq_trans (Hmax _) _); [vm_compute; reflexivity|].
    rewrite Habove by reflexivity. vm_compute. reflexivity.
  - apply Habove. reflexivity.
Defined.

(** C7.  Each root move is valued on its own: when the position after the
    move allows a draw claim the value is 0 and [minimax] is not called (the
    equation holds with no fuel at all, and [debug_info] is untouched);
    otherwise the value is that of [minimax] at [depth - 1], with the flag
    flipped and the bounds [-inf] and [inf], whatever the loop has selected
    so far. *)
Theorem root_branch_value BM (EV : Evaluator BM) ordered fuel depth maximize
    move rest best (s : state BM) :
  root_loop BM EV ordered fuel depth maximize (move :: rest) best s =
    match root_value BM EV ordered fuel depth maximize move s with
    | (Return value, s1) =>
        root_loop BM EV ordered fuel depth maximize rest
          (root_select BM maximize best value move) s1
    | (Raise e, s1) => (Raise e, s1)
    | (OutOfFuel, s1) => (OutOfFuel, s1)
    end /\
  (can_claim_draw BM (push BM move (board s)) = true ->
   root_value BM EV ordered 0 depth maximize move s =
     (Return (Finite 0), mkState (pop BM (push BM move (board s))) (debug_info s)) /\
   root_value BM EV ordered fuel depth maximize move s =
     (Return (Finite 0), mkState (pop BM (push BM move (board s))) (debug_info s))) /\
  (can_claim_draw BM (push BM move (board s)) = false ->
   root_value BM EV ordered fuel depth maximize move s =
     match minimax BM EV ordered fuel (depth - 1) NegInf PosInf (negb maximize)
             (pushed move s) with
     | (Return value, s1) => (Return value, popped s1)
     | (Raise e, s1) => (Raise e, s1)
     | (OutOfFuel, s1) => (OutOfFuel, s1)
     end).
Proof.
  split; [apply root_loop_step|]. split; intros H.
  - rewrite !root_value_unfold, H. split; reflexivity.
  - now rewrite root_value_unfold, H.
Qed.

Lemma root_branch_value_witness :
  root_value tree_model tree_eval tree_ordered 0 2 true 0%nat
    (tree_started WHITE drawable)
  = (Return (Finite 0), tree_started WHITE drawable) /\
  root_value tree_model tree_eval tree_ordered 2 1 true 1%nat
    (tree_started WHITE drawable)
  = (Return (Finite 30),
     mkState (mkTreeBoard WHITE drawable [] : Board tree_model)
       (<["nodes"%string := 1]> ∅)).
Proof.
  pose proof (root_branch_value tree_model tree_eval tree_ordered 0 2 true
                0%nat [] (NegInf, 0%nat) (tree_started WHITE drawable))
    as (_ & Hdraw & _).
  pose proof (root_branch_value tree_model tree_eval tree_ordered 2 1 true
                1%nat [] (NegInf, 0%nat) (tree_started WHITE drawable))
    as (_ & _ & Hsearch).
  split.
  - apply Hdraw. reflexivity.
  - etransitivity; [apply Hsearch; reflexivity|]. vm_compute. reflexivity.
Defined.

(** C10.  When the orderer returns a non-empty list and every root branch
    returns, [minimax_root] returns a move of that list, which is a legal
    move when the list comes from [sorted(board.legal_moves, ...)]; the first
    iteration replaces the initial selection by the first move with its
    value. *)
Theorem minimax_root_returns_ordered_move BM (EV : Evaluator BM) ordered
    fuel depth (s s' : state BM) first rest values :
  ordered (board s) = Ok (first :: rest) ->
  root_values BM EV ordered fuel depth (color_eqb (turn BM (board s)) WHITE)
    (first :: rest) s values s' ->
  (exists mv, minimax_root BM EV ordered fuel depth s = (Return mv, s') /\
              In mv (first :: rest) /\
              (forall key reverse,
                 sorted BM (legal_moves BM (board s)) key reverse
                   = Ok (first :: rest) ->
                 In mv (legal_moves BM (board s)))) /\
  (forall v s1,
     root_value BM EV ordered fuel depth (color_eqb (turn BM (board s)) WHITE)
       first s = (Return v, s1) ->
     minimax_root_scored BM EV ordered fuel depth s =
       root_loop BM EV ordered fuel depth (color_eqb (turn BM (board s)) WHITE)
         rest (v, first) s1).
Proof.
  intros Ho Hv. split.
  - rewrite minimax_root_unfold, minimax_root_scored_unfold. cbv zeta.
    rewrite Ho, (root_loop_values _ _ _ _ _ _ _ _ _ _ _ Hv).
    eexists. split; [reflexivity|].
    pose proof (root_values_length _ _ _ _ _ _ _ _ _ _ Hv) as Hlen.
    pose proof (selection_member BM (color_eqb (turn BM (board s)) WHITE) values
                  first rest
                  (initial_best (color_eqb (turn BM (board s)) WHITE)) Hlen) as Hin.
    split; [exact Hin|].
    intros key reverse Hs. apply sorted_permutation in Hs.
    eapply Permutation_in; eassumption.
  - intros v s1 E. rewrite minimax_root_scored_unfold. cbv zeta.
    now rewrite Ho, root_loop_step, E, root_select_initial.
Qed.

Lemma minimax_root_returns_ordered_move_witness :
  exists mv s',
    minimax_root tree_model tree_eval tree_ordered 2 1 (tree_started WHITE tie)
      = (Return mv, s') /\
    In mv [0%nat; 1%nat].
Proof.
  destruct (minimax_root_returns_ordered_move tree_model tree_eval tree_ordered
              2 1 (tree_started WHITE tie)
              (mkState (mkTreeBoard WHITE tie [] : Board tree_model)
                 (<["nodes"%string := 2]> ∅))
              0%nat [1%nat] [Finite 30; Finite 30] eq_refl) as [(mv & H & Hin & _) _].
  - eapply root_values_cons; [vm_compute; reflexivity|].
    eapply root_values_cons; [vm_compute; reflexivity|].
    apply root_values_nil.
  - exists mv. eexists. split; [exact H|exact Hin].
Defined.



(** C3.  [get_ordered_moves] fails on every board.  Each of the four
    extractors, called with the board alone as in lines 41-44, raises
    [TypeError]; line 40 raises before them, [AttributeError] from
    [evaluate_board_score]; and with the orderer every call of
    [minimax_root] and [next_move] fails, before any move is pushed. *)
Theorem move_ordering_always_fails BM (EV : Evaluator BM) (FT : Features BM)
    (b : Board BM) fuel depth (s : state BM) :
  call (evaluate_pawn_structure BM FT) [VBoard b] = Err TypeError /\
  call (evaluate_open_lines BM FT) [VBoard b] = Err TypeError /\
  call (evaluate_threats BM FT) [VBoard b] = Err TypeError /\
  call (evaluate_mobility BM FT) [VBoard b] = Err TypeError /\
  get_ordered_moves BM EV FT b = Err AttributeError /\
  minimax_root_src BM EV FT fuel depth s = (Raise AttributeError, s) /\
  next_move_src BM EV FT fuel depth s =
    (Raise AttributeError, mkState (board s) (<["nodes"%string := 0]> ∅)).
Proof.
  repeat (split; [apply call_without_color|]).
  split; [apply get_ordered_moves_raises|].
  split; [apply minimax_root_src_raises|apply next_move_src_raises].
Qed.

(** C4.  [evaluate_board_score] returns on no board: the first evaluation
    of line 103 looks up [chess.Color.opposite] and raises [AttributeError],
    before the tests for checkmate and for the draws.  In [pawn_up] White
    has a pawn more and the position is neither checkmate nor drawn: the
    material balance of the specification is 100 for White and -100 for
    Black. *)
Theorem material_score_never_returned :
  evaluate_board_score men_model pawn_up = Err AttributeError /\
  material_balance men_model WHITE pawn_up = 100 /\
  material_balance men_model BLACK pawn_up = -100 /\
  (forall BM (b : Board BM), evaluate_board_score BM b = Err AttributeError).
Proof.
  split; [reflexivity|]. split; [reflexivity|]. split; [reflexivity|].
  intros BM b. apply evaluate_board_score_raises.
Qed.

(** C8.  [minimax_root] selects no move: on [pawn_up] at depth 1 as on
    every board at every depth, line 142 raises before the loop of lines
    145-158 is entered, so neither [minimax_root] nor [next_move] returns a
    move, the one with the extreme score or any other. *)
Theorem minimax_root_returns_no_move BM (EV : Evaluator BM) (FT : Features BM)
    fuel depth (s : state BM) :
  minimax_root_src men_model men_eval (plain_features men_model) 1 1
    (mkState pawn_up (<["nodes"%string := 0]> ∅))
  = (Raise AttributeError, mkState pawn_up (<["nodes"%string := 0]> ∅)) /\
  minimax_root_src BM EV FT fuel depth s = (Raise AttributeError, s) /\
  (forall mv s', minimax_root_src BM EV FT fuel depth s <> (Return mv, s')) /\
  (forall mv s', next_move_src BM EV FT fuel depth s <> (Return mv, s')).
Proof.
  split; [apply minimax_root_src_raises|].
  split; [apply minimax_root_src_raises|]. split; intros mv s'.
  - now rewrite minimax_root_src_raises.
  - now rewrite next_move_src_raises.
Qed.

(** C9.  At a depth of zero or less [next_move] and [minimax_root] fail at
    once: the exception comes from line 142, no move has been pushed and
    [minimax] has not been called, so the board is untouched and
    [debug_info] holds 0 nodes after [next_move] and is as it was after
    [minimax_root].  (The same happens at the other depths, see C3; the
    depth itself is not tested, see X21.) *)
Theorem driver_fails_before_searching BM (EV : Evaluator BM) (FT : Features BM)
    fuel depth (s : state BM) :
  depth <= 0 ->
  next_move_src BM EV FT fuel depth s =
    (Raise AttributeError, mkState (board s) (<["nodes"%string := 0]> ∅)) /\
  minimax_root_src BM EV FT fuel depth s = (Raise AttributeError, s).
Proof.
  intros _. split; [apply next_move_src_raises|apply minimax_root_src_raises].
Qed.

Lemma driver_fails_before_searching_witness :
  next_move_src men_model men_eval (plain_features men_model) 3 (-2)
    (mkState pawn_up (<["nodes"%string := 7]> ∅))
  = (Raise AttributeError, mkState pawn_up (<["nodes"%string := 0]> ∅)) /\
  minimax_root_src men_model men_eval (plain_features men_model) 3 (-2)
    (mkState pawn_up (<["nodes"%string := 7]> ∅))
  = (Raise AttributeError, mkState pawn_up (<["nodes"%string := 7]> ∅)).
Proof.
  apply (driver_fails_before_searching men_model men_eval
           (plain_features men_model) 3 (-2)
           (mkState pawn_up (<["nodes"%string := 7]> ∅))).
  lia.
Defined.

(** * Further properties of the search *)

(** X1.  Pruning equivalence where it holds: when no position is checkmate
    and the static evaluations stay within [MATE_THRESHOLD], whatever score
    and move the full-width root search returns, the search with the cutoff
    returns the same score and the same move, on the same board. *)
Theorem pruning_exact_without_mate_scores BM (EV : Evaluator BM) ordered
    fuel depth (s s1 : state BM) r :
  (forall b, is_checkmate BM b = false) ->
  (forall b v, evaluate_board EV b = Ok v ->
               - MATE_THRESHOLD <= v <= MATE_THRESHOLD) ->
  minimax_root_full BM EV ordered fuel depth s = (Return r, s1) ->
  exists s2,
    minimax_root_scored BM EV ordered fuel depth s = (Return r, s2) /\
    board s2 = board s1.
Proof. intros Hc He. apply minimax_root_prunes; assumption. Qed.

Lemma pruning_exact_without_mate_scores_witness :
  exists s2,
    minimax_root_scored men_model men_eval men_ordered 4 3
      (mkState pawn_up (<["nodes"%string := 0]> ∅))
    = (Return (Finite 25, tt), s2) /\
    board s2 = pawn_up.
Proof.
  apply (pruning_exact_without_mate_scores men_model men_eval men_ordered 4 3
           (mkState pawn_up (<["nodes"%string := 0]> ∅))
           (mkState pawn_up (<["nodes"%string := 14]> ∅))).
  - reflexivity.
  - intros b v H. cbn in H. injection H as <-. unfold MATE_THRESHOLD. lia.
  - vm_compute. reflexivity.
Defined.

(** X2.  With an orderer and an evaluator that return, a depth of at least 1
    and a non-empty list of root moves, [next_move] returns one of these
    moves and leaves the board as it found it; [depth] nested calls of
    [minimax] suffice. *)
Theorem next_move_returns_a_move BM (EV : Evaluator BM) ordered depth
    (s : state BM) first rest :
  (forall b, exists moves, ordered b = Ok moves) ->
  (forall b, exists v, evaluate_board EV b = Ok v) ->
  1 <= depth -> ordered (board s) = Ok (first :: rest) ->
  exists mv s',
    next_move BM EV ordered (Z.to_nat depth) depth s = (Return mv, s') /\
    In mv (first :: rest) /\ board s' = board s.
Proof. intros Ho He. now apply next_move_returns. Qed.

Lemma next_move_returns_a_move_witness :
  exists mv s',
    next_move men_model men_eval men_ordered 3 3 (mkState pawn_up ∅)
    = (Return mv, s') /\
    In mv [tt; tt] /\ board s' = pawn_up.
Proof.
  apply (next_move_returns_a_move men_model men_eval men_ordered 3
           (mkState pawn_up ∅) tt [tt]).
  - intros b. eexists. reflexivity.
  - intros b. eexists. reflexivity.
  - lia.
  - reflexivity.
Defined.

(** X3.  When the orderer returns no move at the root, [minimax_root] and
    [next_move] raise [IndexError] at [moves[0]], before any move is pushed. *)
Theorem empty_root_raises BM (EV : Evaluator BM) ordered fuel depth
    (s : state BM) :
  ordered (board s) = Ok [] ->
  minimax_root BM EV ordered fuel depth s = (Raise IndexError, s) /\
  next_move BM EV ordered fuel depth s =
    (Raise IndexError, mkState (board s) (<["nodes"%string := 0]> ∅)).
Proof.
  intros Ho. rewrite next_move_unfold, !minimax_root_unfold,
    !minimax_root_scored_unfold. cbv zeta. cbn [board]. now rewrite Ho.
Qed.

Lemma empty_root_raises_witness :
  next_move tree_model tree_eval tree_ordered 3 2 (tree_start WHITE quiet)
  = (Raise IndexError, tree_started WHITE quiet).
Proof.
  apply (empty_root_raises tree_model tree_eval tree_ordered 3 2
           (tree_start WHITE quiet)).
  reflexivity.
Defined.

(** ** Orderers that return *)

Lemma not_below_initial mx w : ~ below mx w (initial_best mx).
Proof.
  destruct mx; cbn; unfold score_lt; intros H; score_cases.
Qed.

(** X20.  With an orderer that returns a non-empty list, and when every root
    branch returns, [minimax_root] returns a move whose value is the maximum
    for White and the minimum for Black, and among the moves with that value
    it returns the last one in the order of the orderer: the comparisons of
    lines 153 and 156 are not strict. *)
Theorem minimax_root_selects_last_extremum BM (EV : Evaluator BM) ordered
    fuel depth (s s' : state BM) moves values :
  ordered (board s) = Ok moves -> moves <> [] ->
  root_values BM EV ordered fuel depth (color_eqb (turn BM (board s)) WHITE)
    moves s values s' ->
  exists (i : nat) v mv,
    minimax_root_scored BM EV ordered fuel depth s = (Return (v, mv), s') /\
    minimax_root BM EV ordered fuel depth s = (Return mv, s') /\
    values !! i = Some v /\ moves !! i = Some mv /\
    (forall j w, values !! j = Some w ->
       at_most (color_eqb (turn BM (board s)) WHITE) w v) /\
    (forall j w, (i < j)%nat -> values !! j = Some w -> w <> v).
Proof.
  intros Ho Hne Hv.
  destruct moves as [|first rest]; [contradiction|].
  pose proof (root_values_length _ _ _ _ _ _ _ _ _ _ Hv) as Hlen.
  rewrite minimax_root_unfold, minimax_root_scored_unfold. cbv zeta.
  rewrite Ho, (root_loop_values _ _ _ _ _ _ _ _ _ _ _ Hv).
  destruct (selection_last BM (color_eqb (turn BM (board s)) WHITE) values
              (first :: rest)
              (initial_best (color_eqb (turn BM (board s)) WHITE), first) Hlen)
    as [[_ Hall]|(i & Hval & Hm & Hall & Hlater & _)].
  - exfalso. destruct values as [|w ws]; [discriminate|].
    apply (not_below_initial (color_eqb (turn BM (board s)) WHITE) w).
    apply (Hall 0%nat). reflexivity.
  - exists i. eexists _, _. split; [apply f_equal2; [|reflexivity]|].
    + apply f_equal. apply surjective_pairing.
    + repeat split; assumption.
Qed.

Lemma minimax_root_selects_last_extremum_witness :
  exists (i : nat) v mv s',
    minimax_root tree_model tree_eval tree_ordered 2 1 (tree_started WHITE tie)
      = (Return mv, s') /\
    [Finite 30; Finite 30] !! i = Some v /\ [0%nat; 1%nat] !! i = Some mv /\
    (forall j w, (i < j)%nat -> [Finite 30; Finite 30] !! j = Some w -> w <> v).
Proof.
  destruct (minimax_root_selects_last_extremum tree_model tree_eval tree_ordered
              2 1 (tree_started WHITE tie)
              (mkState (mkTreeBoard WHITE tie [] : Board tree_model)
                 (<["nodes"%string := 2]> ∅))
              [0%nat; 1%nat] [Finite 30; Finite 30] eq_refl)
    as (i & v & mv & _ & H & Hv & Hm & _ & Hlater).
  - discriminate.
  - eapply root_values_cons; [vm_compute; reflexivity|].
    eapply root_values_cons; [vm_compute; reflexivity|].
    apply root_values_nil.
  - exists i, v, mv. eexists. repeat split; eassumption.
Defined.

(** With the orderer of the game tree both moves of [tie] are worth 30, and
    the second one is returned, not the first. *)
Lemma first_tie_not_selected :
  exists s',
    root_values tree_model tree_eval tree_ordered 2 1 true [0%nat; 1%nat]
      (tree_started WHITE tie) [Finite 30; Finite 30] s' /\
    minimax_root tree_model tree_eval tree_ordered 2 1 (tree_started WHITE tie)
      = (Return 1%nat, s') /\
    ~ selects_first true [Finite 30; Finite 30] [0%nat; 1%nat] 1%nat.
Proof.
  eexists. split; [|split].
  - eapply root_values_cons; [vm_compute; reflexivity|].
    eapply root_values_cons; [vm_compute; reflexivity|].
    apply root_values_nil.
  - vm_compute. reflexivity.
  - intros (i & v & Hm & Hv & _ & Hfirst).
    destruct i as [|[|i]]; cbn in Hm; try discriminate.
    cbn in Hv. injection Hv as <-.
    apply (Hfirst 0%nat (Finite 30)); [lia|reflexivity|reflexivity].
Qed.

(** X21.  The search has no test of the depth of its own.  For every orderer
    a depth of zero or less gives the run of depth 0, whatever the static
    evaluator: below depth zero the test [depth == 0] never holds, so the
    evaluator is not reached and only finished games end a line. *)
Theorem nonpositive_depth_searches BM (EV EV' : Evaluator BM) ordered fuel
    depth (s : state BM) :
  depth <= 0 ->
  minimax_root BM EV ordered fuel depth s = minimax_root BM EV' ordered fuel 0 s /\
  next_move BM EV ordered fuel depth s = next_move BM EV' ordered fuel 0 s.
Proof.
  intros H. split.
  - apply minimax_root_below_zero; lia.
  - rewrite !next_move_unfold. apply minimax_root_below_zero; lia.
Qed.

Lemma nonpositive_depth_searches_witness :
  next_move tree_model raising_eval tree_ordered 3 (-5) (tree_start WHITE (mate_in 2))
  = (Return 0%nat,
     mkState (mkTreeBoard WHITE (mate_in 2) [] : Board tree_model)
       (<["nodes"%string := 2]> ∅)).
Proof.
  etransitivity.
  - apply (nonpositive_depth_searches tree_model raising_eval tree_eval
             tree_ordered 3 (-5) (tree_start WHITE (mate_in 2))). lia.
  - vm_compute. reflexivity.
Defined.

(** With the orderer of the game tree, at depth 0 the driver returns a move
    after two calls of [minimax], one for the position after the root move
    and one below it. *)
Lemma depth_zero_is_searched :
  next_move tree_model tree_eval tree_ordered 3 0 (tree_start WHITE (mate_in 2))
  = (Return 0%nat,
     mkState (mkTreeBoard WHITE (mate_in 2) [] : Board tree_model)
       (<["nodes"%string := 2]> ∅)) /\
  root_value tree_model tree_eval tree_ordered 3 0 true 0%nat
    (tree_started WHITE (mate_in 2))
  = (Return (Finite (- MATE_SCORE + 1)),
     mkState (mkTreeBoard WHITE (mate_in 2) [] : Board tree_model)
       (<["nodes"%string := 2]> ∅)).
Proof. split; vm_compute; reflexivity. Qed.

(** X19.  For every orderer: whenever [minimax], [minimax_root] or
    [next_move] returns, by the end of a loop or by a cutoff, every move
    pushed has been popped and the board is the one the call started from. *)
Theorem board_restored_on_return BM (EV : Evaluator BM) ordered fuel depth
    alpha beta mx (s s' : state BM) :
  (forall v, minimax BM EV ordered fuel depth alpha beta mx s = (Return v, s') ->
             board s' = board s) /\
  (forall mv, minimax_root BM EV ordered fuel depth s = (Return mv, s') ->
              board s' = board s) /\
  (forall mv, next_move BM EV ordered fuel depth s = (Return mv, s') ->
              board s' = board s).
Proof.
  assert (Hroot : forall (t t' : state BM) mv,
             minimax_root BM EV ordered fuel depth t = (Return mv, t') ->
             board t' = board t).
  { intros t t' mv. rewrite minimax_root_unfold, minimax_root_scored_unfold.
    cbv zeta. destruct (ordered (board t)) as [[|first rest]|e]; try discriminate.
    destruct (root_loop BM EV ordered fuel depth _ _ _ t) as [[r|e|] t1] eqn:E;
      try discriminate.
    intros H; inversion H; subst. eapply root_loop_restores; exact E. }
  split; [|split].
  - intros v. apply minimax_restores.
  - intros mv. apply Hroot.
  - intros mv. rewrite next_move_unfold. intros H. apply Hroot in H. exact H.
Qed.

(** A search with a cutoff: in [mate_race] the second successor of a node
    is skipped, and the board comes back. *)
Lemma board_restored_on_return_witness :
  board (snd (next_move tree_model tree_eval tree_ordered 8 7
                (tree_start WHITE mate_race)))
  = board (tree_start WHITE mate_race).
Proof.
  apply (proj2 (proj2 (board_restored_on_return tree_model tree_eval tree_ordered
                         8 7 NegInf PosInf true (tree_start WHITE mate_race)
                         (snd (next_move tree_model tree_eval tree_ordered 8 7
                                 (tree_start WHITE mate_race)))))
           1%nat).
  vm_compute. reflexivity.
Defined.

(** With an orderer that returns, an exception leaves moves behind: when the
    evaluator raises two moves below the root, [next_move] is left with both
    moves still on the board. *)
Lemma board_left_pushed_on_error :
  next_move tree_model tree_eval tree_ordered 3 2
    (tree_start WHITE (only (only broken)))
  = (Raise (External 1),
     mkState (push tree_model 0%nat
                (push tree_model 0%nat
                   (board (tree_start WHITE (only (only broken))))))
       (<["nodes"%string := 2]> ∅)) /\
  push tree_model 0%nat
    (push tree_model 0%nat (board (tree_start WHITE (only (only broken)))))
  <> board (tree_start WHITE (only (only broken))).
Proof. split; [vm_compute; reflexivity|discriminate]. Qed.

(** X22.  The equivalence of X1 does not extend to mate scores.  With the
    orderer of the game tree, White to move in [mate_race], depth 7, every
    static evaluation 0: the search with the cutoff values both root moves
    at [MATE_SCORE - 6] and returns the second; the full-width search values
    the first at [MATE_SCORE - 4], the second at [MATE_SCORE - 6], and
    returns the first. *)
Theorem pruning_changes_the_choice :
  fst (minimax_root_scored tree_model tree_eval tree_ordered 8 7
         (tree_started WHITE mate_race))
  = Return (Finite (MATE_SCORE - 6), 1%nat) /\
  fst (minimax_root_full tree_model tree_eval tree_ordered 8 7
         (tree_started WHITE mate_race))
  = Return (Finite (MATE_SCORE - 4), 0%nat) /\
  fst (root_value tree_model tree_eval tree_ordered 8 7 true 0%nat
         (tree_started WHITE mate_race))
  = Return (Finite (MATE_SCORE - 6)) /\
  fst (root_value_full tree_model tree_eval tree_ordered 8 7 true 0%nat
         (tree_started WHITE mate_race))
  = Return (Finite (MATE_SCORE - 4)).
Proof. split; [|split; [|split]]; vm_compute; reflexivity. Qed.

(** ** The node counter *)

Lemma counter_grows_refl {BM} (s : state BM) : counter_grows s s.
Proof.
  split; [reflexivity|]. destruct (debug_info s !! "nodes"%string) as [n|]; eauto.
  exists n. split; [reflexivity|lia].
Qed.

Lemma counter_grows_trans {BM} (s t u : state BM) :
  counter_grows s t -> counter_grows t u -> counter_grows s u.
Proof.
  intros [H1 H2] [H3 H4]. split.
  - intros key Hk. now rewrite H3, H1.
  - destruct (debug_info s !! "nodes"%string) as [n|].
    + destruct H2 as (n' & E & Hle). rewrite E in H4.
      destruct H4 as (n'' & E' & Hle'). exists n''. split; [exact E'|lia].
    + now rewrite H2 in H4.
Qed.

Lemma counter_grows_same {BM} (s t : state BM) :
  debug_info t = debug_info s -> counter_grows s t.
Proof.
  intros H. unfold counter_grows. rewrite H. apply (counter_grows_refl s).
Qed.

Lemma counter_grows_counted {BM} (s : state BM) n :
  debug_info s !! "nodes"%string = Some n -> counter_grows s (counted s n).
Proof.
  intros H. split.
  - intros key Hk. unfold counted; cbn. now rewrite lookup_insert_ne.
  - rewrite H. exists (n + 1). split; [|lia].
    unfold counted; cbn. apply lookup_insert_eq.
Qed.

Section Counter.
Variable BM : BoardModel.
Variable EV : Evaluator BM.
Variable ordered : Board BM -> result (list (Move BM)).

Lemma maximise_counter recurse moves :
  (forall a b s o s', recurse a b s = (o, s') -> counter_grows s s') ->
  forall best alpha beta (s s' : state BM) o,
    maximise BM recurse moves best alpha beta s = (o, s') -> counter_grows s s'.
Proof.
  intros Hrec. induction moves as [|move rest IH]; intros best alpha beta s s' o H.
  - cbn in H. unfold ret in H. inversion H; subst. apply counter_grows_refl.
  - destruct (recurse alpha beta (pushed move s)) as [[v|e|] s1] eqn:E.
    + rewrite (maximise_step _ _ _ _ _ _ _ _ _ _ E) in H. cbv zeta in H.
      assert (G : counter_grows s (popped s1)).
      { eapply counter_grows_trans; [apply (counter_grows_same s (pushed move s)); reflexivity|].
        eapply counter_grows_trans; [eapply Hrec; exact E|].
        apply counter_grows_same. reflexivity. }
      destruct (score_leb beta _).
      * inversion H; subst. exact G.
      * eapply counter_grows_trans; [exact G|]. eapply IH; exact H.
    + rewrite (proj1 (maximise_fails _ _ _ _ _ _ _ _ _) _ E) in H.
      inversion H; subst.
      eapply counter_grows_trans; [apply (counter_grows_same s (pushed move s)); reflexivity|].
      eapply Hrec; exact E.
    + rewrite (proj2 (maximise_fails _ _ _ _ _ _ _ _ _) E) in H.
      inversion H; subst.
      eapply counter_grows_trans; [apply (counter_grows_same s (pushed move s)); reflexivity|].
      eapply Hrec; exact E.
Qed.

Lemma minimise_counter recurse moves :
  (forall a b s o s', recurse a b s = (o, s') -> counter_grows s s') ->
  forall best alpha beta (s s' : state BM) o,
    minimise BM recurse moves best alpha beta s = (o, s') -> counter_grows s s'.
Proof.
  intros Hrec. induction moves as [|move rest IH]; intros best alpha beta s s' o H.
  - cbn in H. unfold ret in H. inversion H; subst. apply counter_grows_refl.
  - destruct (recurse alpha beta (pushed move s)) as [[v|e|] s1] eqn:E.
    + rewrite (minimise_step _ _ _ _ _ _ _ _ _ _ E) in H. cbv zeta in H.
      assert (G : counter_grows s (popped s1)).
      { eapply counter_grows_trans; [apply (counter_grows_same s (pushed move s)); reflexivity|].
        eapply counter_grows_trans; [eapply Hrec; exact E|].
        apply counter_grows_same. reflexivity. }
      destruct (score_leb _ alpha).
      * inversion H; subst. exact G.
      * eapply counter_grows_trans; [exact G|]. eapply IH; exact H.
    + rewrite (proj1 (minimise_fails _ _ _ _ _ _ _ _ _) _ E) in H.
      inversion H; subst.
      eapply counter_grows_trans; [apply (counter_grows_same s (pushed move s)); reflexivity|].
      eapply Hrec; exact E.
    + rewrite (proj2 (minimise_fails _ _ _ _ _ _ _ _ _) E) in H.
      inversion H; subst.
      eapply counter_grows_trans; [apply (counter_grows_same s (pushed move s)); reflexivity|].
      eapply Hrec; exact E.
Qed.

Lemma minimax_counter fuel :
  forall depth alpha beta mx (s s' : state BM) o,
    minimax BM EV ordered fuel depth alpha beta mx s = (o, s') ->
    counter_grows s s'.
Proof.
  induction fuel as [|fuel IH]; intros depth alpha beta mx s s' o H.
  - cbn in H. inversion H; subst. apply counter_grows_refl.
  - destruct (debug_info s !! "nodes"%string) as [n|] eqn:Hn.
    2:{ rewrite (minimax_without_counter _ _ _ _ _ _ _ _ _ Hn) in H.
        inversion H; subst. apply counter_grows_refl. }
    rewrite (minimax_unfold _ _ _ _ _ _ _ _ _ n Hn) in H. cbv zeta in H.
    pose proof (counter_grows_counted s n Hn) as G.
    destruct (is_checkmate BM (board s)); [inversion H; subst; exact G|].
    destruct (is_game_over BM (board s)); [inversion H; subst; exact G|].
    destruct (depth =? 0).
    { destruct (evaluate_board EV (board s)); inversion H; subst; exact G. }
    destruct (ordered (board s)) as [moves|e].
    2:{ inversion H; subst. exact G. }
    eapply counter_grows_trans; [exact G|].
    destruct mx.
    + eapply maximise_counter; [|exact H].
      intros a b t o' t' Hr. exact (IH _ _ _ _ _ _ _ Hr).
    + eapply minimise_counter; [|exact H].
      intros a b t o' t' Hr. exact (IH _ _ _ _ _ _ _ Hr).
Qed.

(** A call that returns has counted itself. *)
Lemma minimax_counts_itself fuel depth alpha beta mx (s s' : state BM) v n :
  minimax BM EV ordered fuel depth alpha beta mx s = (Return v, s') ->
  debug_info s !! "nodes"%string = Some n ->
  exists n', debug_info s' !! "nodes"%string = Some n' /\ n + 1 <= n'.
Proof.
  destruct fuel as [|fuel]; [discriminate|]. intros H Hn.
  rewrite (minimax_unfold _ _ _ _ _ _ _ _ _ n Hn) in H. cbv zeta in H.
  assert (Hc : debug_info (counted s n) !! "nodes"%string = Some (n + 1))
    by (unfold counted; cbn; apply lookup_insert_eq).
  assert (G : forall t, counter_grows (counted s n) t ->
                        exists n', debug_info t !! "nodes"%string = Some n' /\ n + 1 <= n').
  { intros t [_ Gt]. now rewrite Hc in Gt. }
  destruct (is_checkmate BM (board s));
    [inversion H; subst; apply G, counter_grows_refl|].
  destruct (is_game_over BM (board s));
    [inversion H; subst; apply G, counter_grows_refl|].
  destruct (depth =? 0).
  { destruct (evaluate_board EV (board s)); inversion H; subst.
    apply G, counter_grows_refl. }
  destruct (ordered (board s)) as [moves|e]; [|discriminate].
  apply G. destruct mx.
  - eapply maximise_counter; [|exact H].
    intros a b t o' t' Hr. exact (minimax_counter _ _ _ _ _ _ _ _ Hr).
  - eapply minimise_counter; [|exact H].
    intros a b t o' t' Hr. exact (minimax_counter _ _ _ _ _ _ _ _ Hr).
Qed.

Lemma root_value_counter fuel depth maximize move (s s' : state BM) o :
  root_value BM EV ordered fuel depth maximize move s = (o, s') ->
  counter_grows s s'.
Proof.
  rewrite root_value_unfold.
  destruct (can_claim_draw BM (push BM move (board s))).
  - intros H; inversion H; subst. apply counter_grows_same. reflexivity.
  - destruct (minimax BM EV ordered fuel (depth - 1) NegInf PosInf (negb maximize)
                (pushed move s)) as [[v|e|] s1] eqn:E;
      intros H; inversion H; subst;
      (eapply counter_grows_trans;
       [apply (counter_grows_same s (pushed move s)); reflexivity|]).
    + eapply counter_grows_trans; [eapply minimax_counter; exact E|].
      apply counter_grows_same. reflexivity.
    + eapply minimax_counter; exact E.
    + eapply minimax_counter; exact E.
Qed.

Lemma root_loop_counter fuel depth maximize moves :
  forall best (s s' : state BM) o,
    root_loop BM EV ordered fuel depth maximize moves best s = (o, s') ->
    counter_grows s s'.
Proof.
  induction moves as [|move rest IH]; intros best s s' o H.
  - cbn in H. unfold ret in H. inversion H; subst. apply counter_grows_refl.
  - rewrite root_loop_step in H.
    destruct (root_value BM EV ordered fuel depth maximize move s)
      as [[v|e|] s1] eqn:E.
    + eapply counter_grows_trans; [eapply root_value_counter; exact E|].
      eapply IH; exact H.
    + inversion H; subst. eapply root_value_counter; exact E.
    + inversion H; subst. eapply root_value_counter; exact E.
Qed.

Lemma minimax_root_counter fuel depth (s s' : state BM) o :
  minimax_root BM EV ordered fuel depth s = (o, s') -> counter_grows s s'.
Proof.
  rewrite minimax_root_unfold, minimax_root_scored_unfold. cbv zeta.
  destruct (ordered (board s)) as [[|first rest]|e];
    try (intros H; inversion H; subst; apply counter_grows_refl).
  destruct (root_loop BM EV ordered fuel depth _ _ _ s) as [[r|e|] s1] eqn:E;
    intros H; inversion H; subst; eapply root_loop_counter; exact E.
Qed.
End Counter.

(** *** A search of depth 1 *)


Section DepthOne.
Variable BM : BoardModel.
Variable EV : Evaluator BM.
Variable ordered : Board BM -> result (list (Move BM)).
Hypothesis evaluator_returns : forall b, exists v, evaluate_board EV b = Ok v.

Lemma root_value_depth_one fuel maximize move (s : state BM) n :
  debug_info s !! "nodes"%string = Some n ->
  exists v,
    root_value BM EV ordered (S fuel) 1 maximize move s =
      (Return v,
       mkState (board s)
         (<["nodes"%string :=
              n + len (searched_moves BM (board s) [move])]> (debug_info s))).
Proof.
  intros Hn. rewrite root_value_unfold. unfold searched_moves. cbn [List.filter].
  destruct (can_claim_draw BM (push BM move (board s))) eqn:Hc; cbn [negb].
  - exists (Finite 0). unfold popped, pushed, len; cbn.
    rewrite pop_push, Z.add_0_r, insert_id by exact Hn. reflexivity.
  - assert (Hp : debug_info (pushed move s) !! "nodes"%string = Some n) by exact Hn.
    change (1 - 1) with 0.
    rewrite (minimax_unfold _ _ _ _ _ _ _ _ _ n Hp). cbv zeta.
    assert (E : popped (counted (pushed move s) n) =
                mkState (board s) (<["nodes"%string := n + len [move]]> (debug_info s))).
    { unfold popped, counted, pushed; cbn. now rewrite pop_push. }
    destruct (is_checkmate BM (board (pushed move s)));
      [eexists; rewrite E; reflexivity|].
    destruct (is_game_over BM (board (pushed move s)));
      [eexists; rewrite E; reflexivity|].
    cbn [Z.eqb].
    destruct (evaluator_returns (board (pushed move s))) as [v ->].
    eexists; rewrite E; reflexivity.
Qed.

Lemma root_loop_depth_one fuel maximize moves :
  forall best (s : state BM) n,
    debug_info s !! "nodes"%string = Some n ->
    exists r,
      root_loop BM EV ordered (S fuel) 1 maximize moves best s =
        (Return r,
         mkState (board s)
           (<["nodes"%string :=
                n + len (searched_moves BM (board s) moves)]> (debug_info s))) /\
      (r = best \/ In r.2 moves).
Proof.
  induction moves as [|move rest IH]; intros best s n Hn.
  - exists best. split; [|now left]. unfold len; cbn. unfold ret.
    rewrite Z.add_0_r, insert_id by exact Hn. now destruct s.
  - rewrite root_loop_step.
    destruct (root_value_depth_one fuel maximize move s n Hn) as [v ->].
    set (k := len (searched_moves BM (board s) [move])).
    destruct (IH (root_select BM maximize best v move)
                (mkState (board s) (<["nodes"%string := n + k]> (debug_info s)))
                (n + k)) as (r & -> & Hr).
    { cbn. apply lookup_insert_eq. }
    exists r. split.
    + cbn [board debug_info]. rewrite insert_insert_eq. do 3 f_equal.
      unfold k, searched_moves, len. cbn [List.filter].
      destruct (negb (can_claim_draw BM (push BM move (board s)))); cbn [length]; lia.
    + destruct Hr as [-> | Hr]; [|right; now right].
      destruct (root_select_cases BM maximize best v move) as [[_ ->]|[_ ->]].
      * right. now left.
      * now left.
Qed.
End DepthOne.

(** ** The range of the scores *)

Lemma within_weaken k k' v : k <= k' -> within k v -> within k' v.
Proof. destruct v; cbn; lia. Qed.

Lemma mate_adjust_within v :
  within MATE_SCORE v -> within (MATE_SCORE - 1) (mate_adjust v).
Proof.
  destruct v as [|z|]; cbn; try tauto. intros H.
  change (mate_adjust (Finite z)) with (mate_adjust (Finite z)).
  rewrite mate_adjust_finite. cbn.
  unfold MATE_SCORE, MATE_THRESHOLD in *.
  destruct (Z_lt_le_dec 999000000 z) as [G|G];
    [rewrite toward_zero_above by exact G; lia|].
  destruct (Z_lt_le_dec z (-999000000)) as [G'|G'];
    [rewrite toward_zero_below by exact G'; lia|].
  rewrite toward_zero_within by (unfold MATE_THRESHOLD; lia). lia.
Qed.

Lemma py_max_within k a b :
  (a = NegInf \/ within k a) -> within k b -> within k (py_max a b).
Proof.
  unfold py_max. intros [->|Ha] Hb.
  - destruct b; cbn in *; tauto.
  - now destruct (score_ltb a b).
Qed.

Lemma py_min_within k a b :
  (a = PosInf \/ within k a) -> within k b -> within k (py_min a b).
Proof.
  unfold py_min. intros [->|Ha] Hb.
  - destruct b; cbn in *; tauto.
  - now destruct (score_ltb b a).
Qed.

Section Range.
Variable BM : BoardModel.
Variable EV : Evaluator BM.
Variable ordered : Board BM -> result (list (Move BM)).
Hypothesis evaluator_inside :
  forall b v, evaluate_board EV b = Ok v -> - MATE_SCORE < v < MATE_SCORE.
Hypothesis moves_exist :
  forall b moves,
    is_checkmate BM b = false -> is_game_over BM b = false ->
    ordered b = Ok moves -> moves <> [].

Lemma maximise_within recurse moves :
  (forall a b s v s', recurse a b s = (Return v, s') -> within MATE_SCORE v) ->
  forall best alpha beta (s s' : state BM) v,
    (best = NegInf \/ within (MATE_SCORE - 1) best) ->
    maximise BM recurse moves best alpha beta s = (Return v, s') ->
    (moves = [] /\ v = best) \/ within (MATE_SCORE - 1) v.
Proof.
  intros Hrec. induction moves as [|move rest IH]; intros best alpha beta s s' v Hb H.
  - left. cbn in H. unfold ret in H. now inversion H.
  - right. destruct (recurse alpha beta (pushed move s)) as [[c|e|] s1] eqn:E.
    + rewrite (maximise_step _ _ _ _ _ _ _ _ _ _ E) in H. cbv zeta in H.
      assert (Hw : within (MATE_SCORE - 1) (py_max best (mate_adjust c))).
      { apply py_max_within; [exact Hb|]. apply mate_adjust_within.
        eapply Hrec; exact E. }
      destruct (score_leb beta _).
      * inversion H; subst. exact Hw.
      * destruct (IH _ _ _ _ _ _ (or_intror Hw) H) as [[_ ->]|G]; assumption.
    + rewrite (proj1 (maximise_fails _ _ _ _ _ _ _ _ _) _ E) in H. discriminate.
    + rewrite (proj2 (maximise_fails _ _ _ _ _ _ _ _ _) E) in H. discriminate.
Qed.

Lemma minimise_within recurse moves :
  (forall a b s v s', recurse a b s = (Return v, s') -> within MATE_SCORE v) ->
  forall best alpha beta (s s' : state BM) v,
    (best = PosInf \/ within (MATE_SCORE - 1) best) ->
    minimise BM recurse moves best alpha beta s = (Return v, s') ->
    (moves = [] /\ v = best) \/ within (MATE_SCORE - 1) v.
Proof.
  intros Hrec. induction moves as [|move rest IH]; intros best alpha beta s s' v Hb H.
  - left. cbn in H. unfold ret in H. now inversion H.
  - right. destruct (recurse alpha beta (pushed move s)) as [[c|e|] s1] eqn:E.
    + rewrite (minimise_step _ _ _ _ _ _ _ _ _ _ E) in H. cbv zeta in H.
      assert (Hw : within (MATE_SCORE - 1) (py_min best (mate_adjust c))).
      { apply py_min_within; [exact Hb|]. apply mate_adjust_within.
        eapply Hrec; exact E. }
      destruct (score_leb _ alpha).
      * inversion H; subst. exact Hw.
      * destruct (IH _ _ _ _ _ _ (or_intror Hw) H) as [[_ ->]|G]; assumption.
    + rewrite (proj1 (minimise_fails _ _ _ _ _ _ _ _ _) _ E) in H. discriminate.
    + rewrite (proj2 (minimise_fails _ _ _ _ _ _ _ _ _) E) in H. discriminate.
Qed.

(** The score of a position: [MATE_SCORE] in magnitude exactly when it is
    checkmate. *)
Lemma minimax_within fuel :
  forall depth alpha beta mx (s s' : state BM) v,
    minimax BM EV ordered fuel depth alpha beta mx s = (Return v, s') ->
    if is_checkmate BM (board s)
    then v = Finite (if mx then - MATE_SCORE else MATE_SCORE)
    else within (MATE_SCORE - 1) v.
Proof.
  induction fuel as [|fuel IH]; intros depth alpha beta mx s s' v H;
    [discriminate|].
  destruct (debug_info s !! "nodes"%string) as [n|] eqn:Hn.
  2:{ rewrite (minimax_without_counter _ _ _ _ _ _ _ _ _ Hn) in H. discriminate. }
  rewrite (minimax_unfold _ _ _ _ _ _ _ _ _ n Hn) in H. cbv zeta in H.
  destruct (is_checkmate BM (board s)) eqn:Hc; [now inversion H|].
  destruct (is_game_over BM (board s)) eqn:Hg.
  { inversion H; subst. cbn. unfold MATE_SCORE. lia. }
  destruct (depth =? 0).
  { destruct (evaluate_board EV (board s)) as [z|e] eqn:Ez; inversion H; subst.
    cbn. apply evaluator_inside in Ez. lia. }
  destruct (ordered (board s)) as [moves|e] eqn:Ho; [|discriminate].
  pose proof (moves_exist _ _ Hc Hg Ho) as Hne.
  assert (Hrec : forall mx' a b t w t',
             minimax BM EV ordered fuel (depth - 1) a b mx' t = (Return w, t') ->
             within MATE_SCORE w).
  { intros mx' a b t w t' Hr. apply IH in Hr.
    destruct (is_checkmate BM (board t)).
    - subst w. destruct mx'; cbn; unfold MATE_SCORE; lia.
    - eapply within_weaken; [|exact Hr]. lia. }
  destruct mx.
  - apply maximise_within in H; [|intros; eapply Hrec; eassumption|now left].
    destruct H as [[-> _]|H]; [contradiction|exact H].
  - apply minimise_within in H; [|intros; eapply Hrec; eassumption|now left].
    destruct H as [[-> _]|H]; [contradiction|exact H].
Qed.

Lemma root_value_grade fuel depth maximize move (s s' : state BM) v :
  root_value BM EV ordered fuel depth maximize move s = (Return v, s') ->
  root_grade BM (board s) maximize move v.
Proof.
  rewrite root_value_unfold. unfold root_grade.
  destruct (can_claim_draw BM (push BM move (board s))).
  - intros H. now inversion H.
  - destruct (minimax BM EV ordered fuel (depth - 1) NegInf PosInf (negb maximize)
                (pushed move s)) as [[w|e|] s1] eqn:E; intros H; inversion H; subst.
    apply minimax_within in E. cbn [board pushed] in E.
    destruct (is_checkmate BM (push BM move (board s))); [|exact E].
    rewrite E. now destruct maximize.
Qed.

Lemma root_values_grade fuel depth maximize moves (s s' : state BM) values :
  root_values BM EV ordered fuel depth maximize moves s values s' ->
  forall (i : nat) move v,
    moves !! i = Some move -> values !! i = Some v ->
    root_grade BM (board s) maximize move v.
Proof.
  induction 1 as [s|move rest s value s1 values s2 Hv _ IH]; intros i m v Hm Hval.
  - now rewrite lookup_nil in Hm.
  - destruct i as [|i]; cbn in Hm, Hval.
    + injection Hm as <-. injection Hval as <-.
      eapply root_value_grade; exact Hv.
    + rewrite <- (root_value_restores _ _ _ _ _ _ _ _ _ _ Hv). eapply IH; eassumption.
Qed.

Lemma mate_in_one fuel depth (s s' : state BM) moves values mate :
  ordered (board s) = Ok moves ->
  root_values BM EV ordered fuel depth (color_eqb (turn BM (board s)) WHITE)
    moves s values s' ->
  In mate moves ->
  is_checkmate BM (push BM mate (board s)) = true ->
  can_claim_draw BM (push BM mate (board s)) = false ->
  exists mv,
    minimax_root_scored BM EV ordered fuel depth s =
      (Return (Finite (if color_eqb (turn BM (board s)) WHITE
                       then MATE_SCORE else - MATE_SCORE), mv), s') /\
    In mv moves /\
    is_checkmate BM (push BM mv (board s)) = true /\
    can_claim_draw BM (push BM mv (board s)) = false.
Proof.
  intros Ho Hv Hin Hc Hd.
  set (mx := color_eqb (turn BM (board s)) WHITE) in *.
  pose proof (root_values_length _ _ _ _ _ _ _ _ _ _ Hv) as Hlen.
  pose proof (root_values_grade _ _ _ _ _ _ _ Hv) as Hg.
  destruct moves as [|first rest]; [contradiction|].
  rewrite minimax_root_scored_unfold. cbv zeta. fold mx.
  rewrite Ho, (root_loop_values _ _ _ _ _ _ _ _ _ _ _ Hv).
  apply list_elem_of_In, list_elem_of_lookup in Hin. destruct Hin as [j Hj].
  destruct (lookup_lt_is_Some_2 values j) as [w Hw].
  { rewrite Hlen. eapply lookup_lt_Some. exact Hj. }
  pose proof (Hg j mate w Hj Hw) as Gw. unfold root_grade in Gw.
  rewrite Hd, Hc in Gw. subst w.
  destruct (selection_last BM mx values (first :: rest) (initial_best mx, first) Hlen)
    as [[_ Hall]|(i & Hvi & Hmi & Hall & _ & _)].
  { exfalso. apply (not_below_initial mx _ (Hall _ _ Hw)). }
  set (r := selection BM mx (initial_best mx, first) values (first :: rest)) in *.
  pose proof (Hg i r.2 r.1 Hmi Hvi) as Gr. unfold root_grade in Gr.
  pose proof (Hall j _ Hw) as Hle.
  assert (Hr : can_claim_draw BM (push BM r.2 (board s)) = false /\
               is_checkmate BM (push BM r.2 (board s)) = true /\
               r.1 = Finite (if mx then MATE_SCORE else - MATE_SCORE)).
  { destruct (can_claim_draw BM (push BM r.2 (board s))).
    - exfalso. rewrite Gr in Hle. destruct mx; cbn in Hle;
        unfold score_le, MATE_SCORE in Hle; cbn in Hle; discriminate.
    - destruct (is_checkmate BM (push BM r.2 (board s))); [auto|].
      exfalso. destruct r.1 as [|z|]; cbn in Gr; try contradiction.
      destruct mx; cbn in Hle; unfold score_le, MATE_SCORE in *; cbn in Hle;
        apply Z.leb_le in Hle; lia. }
  destruct Hr as (Hrd & Hrc & Hrv).
  exists r.2. split; [|split; [|split]]; try assumption.
  - rewrite <- Hrv. now destruct r.
  - apply list_elem_of_In. eapply list_elem_of_lookup_2. exact Hmi.
Qed.
End Range.

(** ** The two players mirrored *)

Lemma score_leb_opp a b : score_leb (score_opp a) (score_opp b) = score_leb b a.
Proof.
  destruct a, b; cbn; try reflexivity.
  destruct (Z.leb_spec (- z) (- z0)), (Z.leb_spec z0 z); try reflexivity; lia.
Qed.

Lemma score_ltb_opp a b : score_ltb (score_opp a) (score_opp b) = score_ltb b a.
Proof. unfold score_ltb. now rewrite score_leb_opp. Qed.

Lemma py_min_opp a b : py_min (score_opp a) (score_opp b) = score_opp (py_max a b).
Proof. unfold py_min, py_max. rewrite score_ltb_opp. now destruct (score_ltb a b). Qed.

Lemma py_max_opp a b : py_max (score_opp a) (score_opp b) = score_opp (py_min a b).
Proof. unfold py_min, py_max. rewrite score_ltb_opp. now destruct (score_ltb b a). Qed.

Lemma score_opp_involutive v : score_opp (score_opp v) = v.
Proof. destruct v; cbn; try reflexivity. f_equal. lia. Qed.

Lemma mate_adjust_opp v : mate_adjust (score_opp v) = score_opp (mate_adjust v).
Proof.
  destruct v as [|z|]; try reflexivity. cbn [score_opp].
  rewrite !mate_adjust_finite. cbn [score_opp]. f_equal.
  unfold toward_zero. rewrite Z.abs_opp, Z.sgn_opp.
  destruct (MATE_THRESHOLD <? Z.abs z); lia.
Qed.

Section Symmetry.
Variable BM : BoardModel.
Variable EV : Evaluator BM.
Variable ordered : Board BM -> result (list (Move BM)).

Lemma maximise_opp (r1 r2 : score -> score -> M BM score) moves :
  (forall a b s, r2 (score_opp b) (score_opp a) s = opposite_run score_opp (r1 a b s)) ->
  forall best alpha beta s,
    minimise BM r2 moves (score_opp best) (score_opp beta) (score_opp alpha) s =
    opposite_run score_opp (maximise BM r1 moves best alpha beta s).
Proof.
  intros Hr. induction moves as [|move rest IH]; intros best alpha beta s.
  - reflexivity.
  - pose proof (Hr alpha beta (pushed move s)) as E2.
    destruct (r1 alpha beta (pushed move s)) as [[v|e|] s1] eqn:E1; cbn in E2.
    + rewrite (maximise_step _ _ _ _ _ _ _ _ _ _ E1),
        (minimise_step _ _ _ _ _ _ _ _ _ _ E2). cbv zeta.
      rewrite mate_adjust_opp, !py_min_opp, score_leb_opp.
      destruct (score_leb beta _); [reflexivity|apply IH].
    + now rewrite (proj1 (maximise_fails _ _ _ _ _ _ _ _ _) _ E1),
        (proj1 (minimise_fails _ _ _ _ _ _ _ _ _) _ E2).
    + now rewrite (proj2 (maximise_fails _ _ _ _ _ _ _ _ _) E1),
        (proj2 (minimise_fails _ _ _ _ _ _ _ _ _) E2).
Qed.

Lemma minimise_opp (r1 r2 : score -> score -> M BM score) moves :
  (forall a b s, r2 (score_opp b) (score_opp a) s = opposite_run score_opp (r1 a b s)) ->
  forall best alpha beta s,
    maximise BM r2 moves (score_opp best) (score_opp beta) (score_opp alpha) s =
    opposite_run score_opp (minimise BM r1 moves best alpha beta s).
Proof.
  intros Hr. induction moves as [|move rest IH]; intros best alpha beta s.
  - reflexivity.
  - pose proof (Hr alpha beta (pushed move s)) as E2.
    destruct (r1 alpha beta (pushed move s)) as [[v|e|] s1] eqn:E1; cbn in E2.
    + rewrite (minimise_step _ _ _ _ _ _ _ _ _ _ E1),
        (maximise_step _ _ _ _ _ _ _ _ _ _ E2). cbv zeta.
      rewrite mate_adjust_opp, !py_max_opp, score_leb_opp.
      destruct (score_leb _ alpha); [reflexivity|apply IH].
    + now rewrite (proj1 (minimise_fails _ _ _ _ _ _ _ _ _) _ E1),
        (proj1 (maximise_fails _ _ _ _ _ _ _ _ _) _ E2).
    + now rewrite (proj2 (minimise_fails _ _ _ _ _ _ _ _ _) E1),
        (proj2 (maximise_fails _ _ _ _ _ _ _ _ _) E2).
Qed.

Lemma minimax_opp fuel :
  forall depth alpha beta mx s,
    minimax BM (negated EV) ordered fuel depth
      (score_opp beta) (score_opp alpha) (negb mx) s =
    opposite_run score_opp (minimax BM EV ordered fuel depth alpha beta mx s).
Proof.
  induction fuel as [|fuel IH]; intros depth alpha beta mx s.
  - reflexivity.
  - destruct (debug_info s !! "nodes"%string) as [n|] eqn:Hn.
    2:{ now rewrite !minimax_without_counter. }
    rewrite !(minimax_unfold _ _ _ _ _ _ _ _ _ n Hn). cbv zeta.
    destruct (is_checkmate BM (board s)); [now destruct mx|].
    destruct (is_game_over BM (board s)); [reflexivity|].
    destruct (depth =? 0).
    { cbn [evaluate_board negated].
      now destruct (evaluate_board EV (board s)). }
    destruct (ordered (board s)) as [moves|e]; [|reflexivity].
    destruct mx; cbn [negb].
    + apply (maximise_opp _ _ moves (fun a b t => IH (depth - 1) a b false t)
               NegInf alpha beta).
    + apply (minimise_opp _ _ moves (fun a b t => IH (depth - 1) a b true t)
               PosInf alpha beta).
Qed.

Lemma root_value_opp fuel depth maximize move s :
  root_value BM (negated EV) ordered fuel depth (negb maximize) move s =
  opposite_run score_opp (root_value BM EV ordered fuel depth maximize move s).
Proof.
  rewrite !root_value_unfold.
  destruct (can_claim_draw BM (push BM move (board s))); [reflexivity|].
  rewrite (minimax_opp fuel (depth - 1) NegInf PosInf (negb maximize)).
  now destruct (minimax BM EV ordered fuel (depth - 1) NegInf PosInf
                  (negb maximize) (pushed move s)) as [[v|e|] s1].
Qed.

Lemma root_select_opp maximize best v move :
  root_select BM (negb maximize) (opposite_choice best) (score_opp v) move =
  opposite_choice (root_select BM maximize best v move).
Proof.
  unfold root_select, opposite_choice. cbn [fst snd].
  rewrite !score_leb_opp, negb_involutive.
  destruct maximize; cbn [negb andb].
  - now destruct (score_leb best.1 v).
  - now destruct (score_leb v best.1).
Qed.

Lemma root_loop_opp fuel depth maximize moves :
  forall best s,
    root_loop BM (negated EV) ordered fuel depth (negb maximize) moves
      (opposite_choice best) s =
    opposite_run opposite_choice
      (root_loop BM EV ordered fuel depth maximize moves best s).
Proof.
  induction moves as [|move rest IH]; intros best s.
  - reflexivity.
  - rewrite !root_loop_step, root_value_opp.
    destruct (root_value BM EV ordered fuel depth maximize move s)
      as [[v|e|] s1]; cbn [opposite_run]; try reflexivity.
    rewrite root_select_opp. apply IH.
Qed.
End Symmetry.

(** ** The board after a call that does not return *)

Section Lines.
Variable BM : BoardModel.
Variable EV : Evaluator BM.
Variable ordered : Board BM -> result (list (Move BM)).

Lemma popped_times_after_line (line : list (Move BM)) (b : Board BM) :
  popped_times BM (length line) (after_line BM line b) = b.
Proof.
  revert b. induction line as [|move line IH]; intros b; [reflexivity|].
  change (pop BM (popped_times BM (length line)
                    (after_line BM line (push BM move b))) = b).
  rewrite IH. apply pop_push.
Qed.

Lemma left_on_line_here (allowed : nat -> Prop) (s s' : state BM) :
  allowed O -> board s' = board s -> left_on_line allowed s s'.
Proof. intros Ha H. exists []. split; [exact Ha|exact H]. Qed.

Lemma left_on_line_push (inner outer : nat -> Prop) move (s s' : state BM) :
  (forall n, inner n -> outer (S n)) ->
  left_on_line inner (pushed move s) s' -> left_on_line outer s s'.
Proof.
  intros Hn (line & Hl & Hb). exists (move :: line).
  split; [apply Hn, Hl|exact Hb].
Qed.

Lemma maximise_stops recurse moves (inner outer : nat -> Prop) :
  (forall n, inner n -> outer (S n)) ->
  (forall a b t w t', recurse a b t = (Return w, t') -> board t' = board t) ->
  (forall a b t o t', recurse a b t = (o, t') -> stopped o ->
                      left_on_line inner t t') ->
  forall best alpha beta (s s' : state BM) o,
    maximise BM recurse moves best alpha beta s = (o, s') -> stopped o ->
    left_on_line outer s s'.
Proof.
  intros Hn Hret Hstop. induction moves as [|move rest IH];
    intros best alpha beta s s' o H Ho.
  - cbn in H. unfold ret in H. inversion H; subst. contradiction.
  - destruct (recurse alpha beta (pushed move s)) as [[v|e|] s1] eqn:E.
    + rewrite (maximise_step _ _ _ _ _ _ _ _ _ _ E) in H. cbv zeta in H.
      destruct (score_leb beta _).
      * inversion H; subst. contradiction.
      * destruct (IH _ _ _ _ _ _ H Ho) as (line & Hl & Hb).
        exists line. split; [exact Hl|]. rewrite Hb. f_equal.
        unfold popped; cbn. rewrite (Hret _ _ _ _ _ E). cbn. apply pop_push.
    + rewrite (proj1 (maximise_fails _ _ _ _ _ _ _ _ _) _ E) in H.
      inversion H; subst.
      exact (left_on_line_push _ _ _ _ _ Hn (Hstop _ _ _ _ _ E I)).
    + rewrite (proj2 (maximise_fails _ _ _ _ _ _ _ _ _) E) in H.
      inversion H; subst.
      exact (left_on_line_push _ _ _ _ _ Hn (Hstop _ _ _ _ _ E I)).
Qed.

Lemma minimise_stops recurse moves (inner outer : nat -> Prop) :
  (forall n, inner n -> outer (S n)) ->
  (forall a b t w t', recurse a b t = (Return w, t') -> board t' = board t) ->
  (forall a b t o t', recurse a b t = (o, t') -> stopped o ->
                      left_on_line inner t t') ->
  forall best alpha beta (s s' : state BM) o,
    minimise BM recurse moves best alpha beta s = (o, s') -> stopped o ->
    left_on_line outer s s'.
Proof.
  intros Hn Hret Hstop. induction moves as [|move rest IH];
    intros best alpha beta s s' o H Ho.
  - cbn in H. unfold ret in H. inversion H; subst. contradiction.
  - destruct (recurse alpha beta (pushed move s)) as [[v|e|] s1] eqn:E.
    + rewrite (minimise_step _ _ _ _ _ _ _ _ _ _ E) in H. cbv zeta in H.
      destruct (score_leb _ alpha).
      * inversion H; subst. contradiction.
      * destruct (IH _ _ _ _ _ _ H Ho) as (line & Hl & Hb).
        exists line. split; [exact Hl|]. rewrite Hb. f_equal.
        unfold popped; cbn. rewrite (Hret _ _ _ _ _ E). cbn. apply pop_push.
    + rewrite (proj1 (minimise_fails _ _ _ _ _ _ _ _ _) _ E) in H.
      inversion H; subst.
      exact (left_on_line_push _ _ _ _ _ Hn (Hstop _ _ _ _ _ E I)).
    + rewrite (proj2 (minimise_fails _ _ _ _ _ _ _ _ _) E) in H.
      inversion H; subst.
      exact (left_on_line_push _ _ _ _ _ Hn (Hstop _ _ _ _ _ E I)).
Qed.

Lemma at_most_plies_here least depth : 0 <= least -> at_most_plies least depth O.
Proof. unfold at_most_plies. cbn. lia. Qed.

Lemma at_most_plies_deeper depth n :
  depth <> 0 -> at_most_plies 0 (depth - 1) n -> at_most_plies 0 depth (S n).
Proof. unfold at_most_plies. lia. Qed.

Lemma at_most_plies_root depth n :
  at_most_plies 0 (depth - 1) n -> at_most_plies 1 depth (S n).
Proof. unfold at_most_plies. lia. Qed.

Lemma minimax_stops fuel :
  forall depth alpha beta mx (s s' : state BM) o,
    minimax BM EV ordered fuel depth alpha beta mx s = (o, s') -> stopped o ->
    left_on_line (at_most_plies 0 depth) s s'.
Proof.
  induction fuel as [|fuel IH]; intros depth alpha beta mx s s' o H Ho.
  - cbn in H. inversion H; subst.
    apply left_on_line_here; [now apply at_most_plies_here|reflexivity].
  - assert (Hhere : forall t : state BM,
               board t = board s -> left_on_line (at_most_plies 0 depth) s t).
    { intros t Ht. apply left_on_line_here; [now apply at_most_plies_here|exact Ht]. }
    destruct (debug_info s !! "nodes"%string) as [n|] eqn:Hn.
    2:{ rewrite (minimax_without_counter _ _ _ _ _ _ _ _ _ Hn) in H.
        inversion H; subst. now apply Hhere. }
    rewrite (minimax_unfold _ _ _ _ _ _ _ _ _ n Hn) in H. cbv zeta in H.
    destruct (is_checkmate BM (board s)); [inversion H; subst; contradiction|].
    destruct (is_game_over BM (board s)); [inversion H; subst; contradiction|].
    destruct (Z.eqb_spec depth 0) as [Hd|Hd].
    { destruct (evaluate_board EV (board s)); inversion H; subst;
        [contradiction|now apply Hhere]. }
    destruct (ordered (board s)) as [moves|e].
    2:{ inversion H; subst. now apply Hhere. }
    assert (G : left_on_line (at_most_plies 0 depth) (counted s n) s'); [|exact G].
    destruct mx.
    + eapply (maximise_stops _ _ (at_most_plies 0 (depth - 1)));
        [| | |exact H|exact Ho].
      * intros k. now apply at_most_plies_deeper.
      * intros a b t w t' Hr. exact (minimax_restores _ _ _ _ _ _ _ _ _ _ _ Hr).
      * intros a b t o' t' Hr. exact (IH _ _ _ _ _ _ _ Hr).
    + eapply (minimise_stops _ _ (at_most_plies 0 (depth - 1)));
        [| | |exact H|exact Ho].
      * intros k. now apply at_most_plies_deeper.
      * intros a b t w t' Hr. exact (minimax_restores _ _ _ _ _ _ _ _ _ _ _ Hr).
      * intros a b t o' t' Hr. exact (IH _ _ _ _ _ _ _ Hr).
Qed.

Lemma root_value_stops fuel depth maximize move (s s' : state BM) o :
  root_value BM EV ordered fuel depth maximize move s = (o, s') -> stopped o ->
  left_on_line (at_most_plies 1 depth) s s'.
Proof.
  rewrite root_value_unfold.
  destruct (can_claim_draw BM (push BM move (board s))).
  { intros H; inversion H; subst. contradiction. }
  destruct (minimax BM EV ordered fuel (depth - 1) NegInf PosInf
              (negb maximize) (pushed move s)) as [[w|e|] s1] eqn:E;
    intros H Ho; inversion H; subst; try contradiction;
    exact (left_on_line_push _ _ _ _ _ (at_most_plies_root depth)
             (minimax_stops _ _ _ _ _ _ _ _ E I)).
Qed.

Lemma root_loop_stops fuel depth maximize moves :
  forall best (s s' : state BM) o,
    root_loop BM EV ordered fuel depth maximize moves best s = (o, s') ->
    stopped o -> left_on_line (at_most_plies 1 depth) s s'.
Proof.
  induction moves as [|move rest IH]; intros best s s' o H Ho.
  - cbn in H. unfold ret in H. inversion H; subst. contradiction.
  - rewrite root_loop_step in H.
    destruct (root_value BM EV ordered fuel depth maximize move s)
      as [[v|e|] s1] eqn:E.
    + destruct (IH _ _ _ _ H Ho) as (line & Hl & Hb).
      exists line. split; [exact Hl|].
      now rewrite Hb, (root_value_restores _ _ _ _ _ _ _ _ _ _ E).
    + inversion H; subst. exact (root_value_stops _ _ _ _ _ _ _ E I).
    + inversion H; subst. exact (root_value_stops _ _ _ _ _ _ _ E I).
Qed.

Lemma minimax_root_restores fuel depth (s s' : state BM) mv :
  minimax_root BM EV ordered fuel depth s = (Return mv, s') ->
  board s' = board s.
Proof.
  rewrite minimax_root_unfold, minimax_root_scored_unfold. cbv zeta.
  destruct (ordered (board s)) as [[|first rest]|e]; try discriminate.
  destruct (root_loop BM EV ordered fuel depth _ _ _ _) as [[r|e|] s1] eqn:E;
    intros H; inversion H; subst.
  exact (root_loop_restores _ _ _ _ _ _ _ _ _ _ _ E).
Qed.

Lemma next_move_stops fuel depth (s s' : state BM) o :
  next_move BM EV ordered fuel depth s = (o, s') -> stopped o ->
  left_on_line (at_most_plies 1 depth) s s'.
Proof.
  rewrite next_move_unfold, minimax_root_unfold, minimax_root_scored_unfold.
  cbv zeta. cbn [board].
  assert (Hhere : forall t : state BM,
             board t = board s -> left_on_line (at_most_plies 1 depth) s t).
  { intros t Ht. apply left_on_line_here; [apply at_most_plies_here; lia|exact Ht]. }
  destruct (ordered (board s)) as [[|first rest]|e];
    try (intros H _; inversion H; subst; now apply Hhere).
  destruct (root_loop BM EV ordered fuel depth _ _ _ _) as [[r|e|] s1] eqn:E;
    intros H Ho; inversion H; subst; try contradiction;
    destruct (root_loop_stops _ _ _ _ _ _ _ _ E I) as (line & Hl & Hb);
    exists line; (split; [exact Hl|exact Hb]).
Qed.
End Lines.

(** ** Root moves that allow a draw claim *)

Section ClaimableMoves.
Variable BM : BoardModel.
Variable EV : Evaluator BM.
Variable ordered : Board BM -> result (list (Move BM)).

Lemma popped_pushed move (s : state BM) : popped (pushed move s) = s.
Proof. unfold popped, pushed; cbn. rewrite pop_push. now destruct s. Qed.

(** Such moves are valued 0 without a call of [minimax], and the loop
    goes on in the same state. *)
Lemma root_loop_claimable fuel depth maximize drawn rest (s : state BM) :
  (forall m, In m drawn -> can_claim_draw BM (push BM m (board s)) = true) ->
  forall best,
    exists best',
      root_loop BM EV ordered fuel depth maximize (drawn ++ rest) best s =
      root_loop BM EV ordered fuel depth maximize rest best' s /\
      (best' = best \/ In best'.2 drawn).
Proof.
  induction drawn as [|d drawn IH]; intros Hd best.
  - exists best. split; [reflexivity|now left].
  - cbn [app]. rewrite root_loop_step, root_value_unfold, Hd by now left.
    rewrite popped_pushed.
    destruct (IH (fun m Hm => Hd m (or_intror Hm))
                (root_select BM maximize best (Finite 0) d))
      as (best' & E & Hb).
    exists best'. split; [exact E|].
    destruct Hb as [-> | Hb]; [|right; now right].
    destruct (root_select_cases BM maximize best (Finite 0) d) as [[_ ->]|[_ ->]].
    + right. now left.
    + now left.
Qed.
End ClaimableMoves.

(** ** The search and the extractors, property by property *)

(** X4.  [minimax] reads [debug_info["nodes"]] before anything else: when
    the entry is missing it raises [KeyError] and touches nothing, whatever
    the position and the depth.  [minimax_root], called without [next_move]
    having set the entry, raises it from the first root move that does not
    allow a draw claim, wherever the move stands in the list, with that move
    left on the board; when every root move allows a draw claim it returns
    one of them and the entry is not missed. *)
Theorem search_without_counter_raises BM (EV : Evaluator BM) ordered fuel depth
    alpha beta mx (s : state BM) :
  debug_info s !! "nodes"%string = None ->
  minimax BM EV ordered (S fuel) depth alpha beta mx s = (Raise KeyError, s) /\
  (forall drawn move rest,
     ordered (board s) = Ok (drawn ++ move :: rest) ->
     (forall m, In m drawn -> can_claim_draw BM (push BM m (board s)) = true) ->
     can_claim_draw BM (push BM move (board s)) = false ->
     minimax_root BM EV ordered (S fuel) depth s =
       (Raise KeyError, mkState (push BM move (board s)) (debug_info s))) /\
  (forall first rest,
     ordered (board s) = Ok (first :: rest) ->
     (forall m, In m (first :: rest) ->
                can_claim_draw BM (push BM m (board s)) = true) ->
     exists mv,
       minimax_root BM EV ordered (S fuel) depth s = (Return mv, s) /\
       In mv (first :: rest)).
Proof.
  intros Hn. split; [now apply minimax_without_counter|]. split.
  - intros drawn move rest Ho Hd Hc.
    rewrite minimax_root_unfold, minimax_root_scored_unfold. cbv zeta. rewrite Ho.
    assert (G : forall best,
               root_loop BM EV ordered (S fuel) depth
                 (color_eqb (turn BM (board s)) WHITE) (drawn ++ move :: rest)
                 best s = (Raise KeyError, pushed move s)).
    { intros best.
      destruct (root_loop_claimable BM EV ordered (S fuel) depth
                  (color_eqb (turn BM (board s)) WHITE) drawn (move :: rest)
                  s Hd best) as (best' & -> & _).
      rewrite root_loop_step, root_value_unfold, Hc.
      now rewrite minimax_without_counter by exact Hn. }
    destruct drawn as [|d drawn]; cbn [app] in *; now rewrite G.
  - intros first rest Ho Hd.
    rewrite minimax_root_unfold, minimax_root_scored_unfold. cbv zeta. rewrite Ho.
    destruct (root_loop_claimable BM EV ordered (S fuel) depth
                (color_eqb (turn BM (board s)) WHITE) (first :: rest) [] s Hd
                (initial_best (color_eqb (turn BM (board s)) WHITE), first))
      as (best' & E & Hb).
    rewrite app_nil_r in E. rewrite E. exists best'.2. split; [reflexivity|].
    destruct Hb as [-> | Hb]; [now left|exact Hb].
Qed.

Lemma search_without_counter_raises_witness :
  minimax_root tree_model tree_eval tree_ordered 3 2 (tree_start WHITE drawable)
  = (Raise KeyError,
     mkState (push tree_model 1%nat (board (tree_start WHITE drawable))) ∅).
Proof.
  destruct (search_without_counter_raises tree_model tree_eval tree_ordered 2 2
              NegInf PosInf true (tree_start WHITE drawable) eq_refl)
    as (_ & H & _).
  apply (H [0%nat] 1%nat []); [reflexivity| |reflexivity].
  intros m [<-|[]]. reflexivity.
Defined.

(** X5.  The only entry of [debug_info] that [minimax] and [minimax_root]
    write is ["nodes"], and they only increase it, on every exit, also when
    an exception leaves them; a call of [minimax] that returns has counted
    itself. *)
Theorem search_only_counts_nodes BM (EV : Evaluator BM) ordered fuel depth
    alpha beta mx (s : state BM) :
  (forall o s',
     minimax BM EV ordered fuel depth alpha beta mx s = (o, s') ->
     counter_grows s s') /\
  (forall v s' n,
     minimax BM EV ordered fuel depth alpha beta mx s = (Return v, s') ->
     debug_info s !! "nodes"%string = Some n ->
     exists n', debug_info s' !! "nodes"%string = Some n' /\ n + 1 <= n') /\
  (forall o s',
     minimax_root BM EV ordered fuel depth s = (o, s') -> counter_grows s s').
Proof.
  split; [|split].
  - intros o s'. apply minimax_counter.
  - intros v s' n. apply minimax_counts_itself.
  - intros o s'. apply minimax_root_counter.
Qed.

Lemma search_only_counts_nodes_witness :
  exists n',
    debug_info
      (snd (minimax tree_model tree_eval tree_ordered 3 2 NegInf PosInf true
              (mkState (mkTreeBoard WHITE tie [] : Board tree_model)
                 (<["seldepth"%string := 5]> (<["nodes"%string := 40]> ∅))))
      ) !! "nodes"%string = Some n' /\ 40 + 1 <= n'.
Proof.
  destruct (search_only_counts_nodes tree_model tree_eval tree_ordered 3 2
              NegInf PosInf true
              (mkState (mkTreeBoard WHITE tie [] : Board tree_model)
                 (<["seldepth"%string := 5]> (<["nodes"%string := 40]> ∅))))
    as (_ & H & _).
  eapply H; [|reflexivity]. vm_compute. reflexivity.
Defined.

(** X6.  Whatever [debug_info] held before, after [next_move], returned or
    left by an exception, it holds a count of nodes that is not negative
    and, the entry ["time"] apart, nothing else. *)
Theorem next_move_resets_debug_info BM (EV : Evaluator BM) ordered fuel depth
    (s s' : state BM) o :
  next_move BM EV ordered fuel depth s = (o, s') ->
  (exists n', debug_info s' !! "nodes"%string = Some n' /\ 0 <= n') /\
  (forall key, key <> "nodes"%string -> key <> "time"%string ->
               debug_info s' !! key = None).
Proof.
  rewrite next_move_unfold. intros H.
  apply minimax_root_counter in H. destruct H as [Hk Hn].
  cbn [debug_info] in Hk, Hn. rewrite lookup_insert_eq in Hn.
  split; [exact Hn|].
  intros key Hne _. now rewrite Hk, lookup_insert_ne by congruence.
Qed.

Lemma next_move_resets_debug_info_witness :
  (exists n',
     debug_info
       (snd (next_move tree_model tree_eval tree_ordered 8 7
               (mkState (mkTreeBoard WHITE mate_race [] : Board tree_model)
                  (<["seldepth"%string := 5]> (<["nodes"%string := 40]> ∅)))))
     !! "nodes"%string = Some n' /\ 0 <= n') /\
  (forall key, key <> "nodes"%string -> key <> "time"%string ->
     debug_info
       (snd (next_move tree_model tree_eval tree_ordered 8 7
               (mkState (mkTreeBoard WHITE mate_race [] : Board tree_model)
                  (<["seldepth"%string := 5]> (<["nodes"%string := 40]> ∅)))))
     !! key = None).
Proof.
  eapply (next_move_resets_debug_info tree_model tree_eval tree_ordered 8 7).
  apply surjective_pairing.
Defined.

(** X7.  At depth 1, with an evaluator that returns, [next_move] returns
    one of the root moves, leaves the board as it was, and has made one call
    of [minimax] for each root move that does not allow a draw claim, and no
    other: this number is what ["nodes"] holds. *)
Theorem depth_one_counts_root_moves BM (EV : Evaluator BM) ordered fuel
    (s : state BM) first rest :
  (forall b, exists v, evaluate_board EV b = Ok v) ->
  ordered (board s) = Ok (first :: rest) ->
  exists mv s',
    next_move BM EV ordered (S fuel) 1 s = (Return mv, s') /\
    In mv (first :: rest) /\
    board s' = board s /\
    debug_info s' !! "nodes"%string =
      Some (len (searched_moves BM (board s) (first :: rest))).
Proof.
  intros He Ho. rewrite next_move_unfold, minimax_root_unfold,
    minimax_root_scored_unfold. cbv zeta. cbn [board]. rewrite Ho.
  destruct (root_loop_depth_one BM EV ordered He fuel
              (color_eqb (turn BM (board s)) WHITE) (first :: rest)
              (initial_best (color_eqb (turn BM (board s)) WHITE), first)
              (mkState (board s) (<["nodes"%string := 0]> ∅)) 0)
    as (r & -> & Hr).
  { cbn. apply lookup_insert_eq. }
  eexists r.2, _. split; [reflexivity|]. split; [|split].
  - destruct Hr as [-> | Hr]; [now left|exact Hr].
  - reflexivity.
  - cbn [board debug_info]. now rewrite lookup_insert_eq, Z.add_0_l.
Qed.

Lemma depth_one_counts_root_moves_witness :
  exists mv s',
    next_move men_model men_eval men_ordered 1 1 (mkState pawn_up ∅)
    = (Return mv, s') /\
    In mv [tt; tt] /\
    board s' = pawn_up /\
    debug_info s' !! "nodes"%string = Some 2.
Proof.
  apply (depth_one_counts_root_moves men_model men_eval men_ordered 0
           (mkState pawn_up ∅) tt [tt]).
  - intros b. eexists. reflexivity.
  - reflexivity.
Defined.

(** X8.  With static evaluations strictly between the mate scores and an
    orderer that gives every unfinished position a move, a score that
    [minimax] returns is an integer between [-MATE_SCORE] and [MATE_SCORE],
    never an infinity, and it is one of the two mate scores exactly when the
    position searched is itself checkmate. *)
Theorem mate_score_marks_checkmate BM (EV : Evaluator BM) ordered fuel depth
    alpha beta mx (s s' : state BM) v :
  (forall b z, evaluate_board EV b = Ok z -> - MATE_SCORE < z < MATE_SCORE) ->
  (forall b moves,
     is_checkmate BM b = false -> is_game_over BM b = false ->
     ordered b = Ok moves -> moves <> []) ->
  minimax BM EV ordered fuel depth alpha beta mx s = (Return v, s') ->
  exists z,
    v = Finite z /\ - MATE_SCORE <= z <= MATE_SCORE /\
    (Z.abs z = MATE_SCORE <-> is_checkmate BM (board s) = true).
Proof.
  intros He Ho H. apply (minimax_within BM EV ordered He Ho) in H.
  destruct (is_checkmate BM (board s)).
  - subst v. eexists. split; [reflexivity|].
    destruct mx; unfold MATE_SCORE; split; try lia; split; intros _; lia.
  - destruct v as [|z|]; cbn in H; try contradiction.
    exists z. split; [reflexivity|]. split; [lia|].
    split; [lia|discriminate].
Qed.

Lemma mate_score_marks_checkmate_witness :
  exists z,
    Finite 999999999 = Finite z /\ - MATE_SCORE <= z <= MATE_SCORE /\
    (Z.abs z = MATE_SCORE <->
     is_checkmate tree_model (board (tree_started WHITE mate_or_wait)) = true).
Proof.
  apply (mate_score_marks_checkmate tree_model flat_eval two_ordered 3 2
           NegInf PosInf true (tree_started WHITE mate_or_wait)
           (snd (minimax tree_model flat_eval two_ordered 3 2 NegInf PosInf true
                   (tree_started WHITE mate_or_wait)))
           (Finite 999999999)).
  - intros b z H. injection H as <-. unfold MATE_SCORE. lia.
  - intros b moves _ _ H. injection H as <-. discriminate.
  - vm_compute. reflexivity.
Defined.

(** X9.  Under the same conditions and at any depth of at least 1: when one
    of the root moves gives checkmate without allowing a draw claim,
    [next_move] returns a move that gives checkmate, on the board restored. *)
Theorem mate_in_one_is_played BM (EV : Evaluator BM) ordered depth
    (s : state BM) moves mate :
  (forall b, exists z,
     evaluate_board EV b = Ok z /\ - MATE_SCORE < z < MATE_SCORE) ->
  (forall b, exists l,
     ordered b = Ok l /\
     (is_checkmate BM b = false -> is_game_over BM b = false -> l <> [])) ->
  1 <= depth ->
  ordered (board s) = Ok moves -> In mate moves ->
  is_checkmate BM (push BM mate (board s)) = true ->
  can_claim_draw BM (push BM mate (board s)) = false ->
  exists mv s',
    next_move BM EV ordered (Z.to_nat depth) depth s = (Return mv, s') /\
    In mv moves /\
    is_checkmate BM (push BM mv (board s)) = true /\
    can_claim_draw BM (push BM mv (board s)) = false /\
    board s' = board s.
Proof.
  intros He Ho Hd Hm Hin Hc Hdraw.
  set (t := mkState (board s) (<["nodes"%string := 0]> ∅) : state BM).
  assert (Ht : has_counter t)
    by (unfold has_counter, t; cbn; rewrite lookup_insert_eq; eauto).
  assert (Hor : forall b, exists l, ordered b = Ok l)
    by (intros b; destruct (Ho b) as (l & E & _); eauto).
  assert (Her : forall b, exists z, evaluate_board EV b = Ok z)
    by (intros b; destruct (He b) as (z & E & _); eauto).
  assert (Hei : forall b z, evaluate_board EV b = Ok z ->
                            - MATE_SCORE < z < MATE_SCORE).
  { intros b z E. destruct (He b) as (z' & E' & Hz). congruence. }
  assert (Hon : forall b l, is_checkmate BM b = false ->
                            is_game_over BM b = false ->
                            ordered b = Ok l -> l <> []).
  { intros b l G1 G2 E. destruct (Ho b) as (l' & E' & Hl).
    assert (l = l') by congruence. subst. now apply Hl. }
  destruct (root_values_exist BM EV ordered Hor Her (Z.to_nat depth) depth
              (color_eqb (turn BM (board t)) WHITE) moves ltac:(lia) t Ht)
    as (values & t' & Hv).
  destruct (mate_in_one BM EV ordered Hei Hon (Z.to_nat depth) depth t t'
              moves values mate Hm Hv Hin Hc Hdraw)
    as (mv & E & Hmv & Hmc & Hmd).
  rewrite next_move_unfold, minimax_root_unfold. fold t. rewrite E.
  exists mv, t'. split; [reflexivity|]. repeat (split; [assumption|]).
  rewrite minimax_root_scored_unfold in E. cbv zeta in E.
  change (board t) with (board s) in E. rewrite Hm in E.
  destruct moves as [|first rest]; [discriminate|].
  exact (root_loop_restores BM EV ordered _ _ _ _ _ t t' _ E).
Qed.

Lemma mate_in_one_is_played_witness :
  exists mv s',
    next_move tree_model flat_eval two_ordered (Z.to_nat 2) 2
      (tree_start WHITE mate_or_wait) = (Return mv, s') /\
    In mv [0%nat; 1%nat] /\
    is_checkmate tree_model
      (push tree_model mv (board (tree_start WHITE mate_or_wait))) = true /\
    can_claim_draw tree_model
      (push tree_model mv (board (tree_start WHITE mate_or_wait))) = false /\
    board s' = board (tree_start WHITE mate_or_wait).
Proof.
  apply (mate_in_one_is_played tree_model flat_eval two_ordered 2
           (tree_start WHITE mate_or_wait) [0%nat; 1%nat] 1%nat).
  - intros b. exists 0. split; [reflexivity|unfold MATE_SCORE; lia].
  - intros b. exists [0%nat; 1%nat]. split; [reflexivity|discriminate].
  - lia.
  - reflexivity.
  - right. left. reflexivity.
  - reflexivity.
  - reflexivity.
Defined.

(** X10.  The maximising and the minimising branch mirror each other: with
    every static evaluation negated, the window negated and swapped and the
    flag flipped, [minimax] gives the negated score, the same exception or
    the same lack of fuel, in the same state; and the loop of [minimax_root]
    then chooses the same move with the negated score. *)
Theorem search_mirrors_under_negation BM (EV : Evaluator BM) ordered fuel depth
    alpha beta mx maximize moves first (s : state BM) :
  minimax BM (negated EV) ordered fuel depth
    (score_opp beta) (score_opp alpha) (negb mx) s =
    opposite_run score_opp (minimax BM EV ordered fuel depth alpha beta mx s) /\
  root_loop BM (negated EV) ordered fuel depth (negb maximize) moves
    (initial_best (negb maximize), first) s =
    opposite_run opposite_choice
      (root_loop BM EV ordered fuel depth maximize moves
         (initial_best maximize, first) s).
Proof.
  split; [apply minimax_opp|].
  rewrite <- (root_loop_opp BM EV ordered fuel depth maximize moves
                (initial_best maximize, first) s).
  now destruct maximize.
Qed.

(** X11.  There is no exception handler in the search: when [next_move] is
    left by an exception, the board is the board it was given with the moves
    of one line of play still pushed, at most [depth] of them when [depth]
    is at least 1, and as many calls of [board.pop()] restore it. *)
Theorem error_leaves_line_pushed BM (EV : Evaluator BM) ordered fuel depth
    (s s' : state BM) e :
  next_move BM EV ordered fuel depth s = (Raise e, s') ->
  exists line,
    board s' = after_line BM line (board s) /\
    popped_times BM (length line) (board s') = board s /\
    (1 <= depth -> len line <= depth).
Proof.
  intros H.
  destruct (next_move_stops BM EV ordered _ _ _ _ _ H I) as (line & Hl & Hb).
  exists line. split; [exact Hb|]. split; [|exact Hl].
  rewrite Hb. apply popped_times_after_line.
Qed.

Lemma error_leaves_line_pushed_witness :
  exists line,
    board (snd (next_move tree_model tree_eval tree_ordered 3 2
                  (tree_start WHITE trap)))
    = after_line tree_model line (board (tree_start WHITE trap)) /\
    popped_times tree_model (length line)
      (board (snd (next_move tree_model tree_eval tree_ordered 3 2
                     (tree_start WHITE trap))))
    = board (tree_start WHITE trap) /\
    (1 <= 2 -> len line <= 2).
Proof.
  apply (error_leaves_line_pushed tree_model tree_eval tree_ordered 3 2
           (tree_start WHITE trap) _ (External 1)).
  vm_compute. reflexivity.
Defined.

(** X14.  [evaluate_open_lines] returns on no board and for no colour,
    also when it is called with both arguments: line 75 calls
    [board.pieces] with three arguments and raises [TypeError] before the
    loops. *)
Theorem open_lines_always_raises BM (P : BoardPrimitives BM) (b : Board BM) c :
  call (board_color_function BM (open_lines_source BM P))
    [VBoard b; VColor c] = Err TypeError.
Proof. reflexivity. Qed.

(** X15.  [evaluate_threats] returns on no board and for no colour, also
    when it is called with both arguments: line 64 looks up
    [chess.Color.opposite] and raises [AttributeError] before [board.pieces]
    is called. *)
Theorem threats_always_raises BM (P : BoardPrimitives BM) (b : Board BM) c :
  call (board_color_function BM (threats_source BM P))
    [VBoard b; VColor c] = Err AttributeError.
Proof. reflexivity. Qed.

(** X16.  [evaluate_mobility] returns on no board and for no colour: line 58
    calls [board.pieces] with three arguments and raises [TypeError] before
    [piece.move] and [board.push] are reached, so the board and
    [debug_info] are as they were. *)
Theorem mobility_always_raises BM (P : BoardPrimitives BM) c (s : state BM) :
  mobility_source BM P c s = (Raise TypeError, s).
Proof. reflexivity. Qed.

(** X17.  [evaluate_position] returns on no board, whatever the bodies of
    the four extractors: its first operand, [evaluate_board_score], raises
    [AttributeError] before an extractor is called. *)
Theorem evaluate_position_always_raises BM (FT : Features BM) (b : Board BM) :
  evaluate_position BM FT b = Err AttributeError.
Proof. apply evaluate_position_raises. Qed.

(** X18.  Nothing of a search is carried into the next one: after
    [next_move] has returned, a second call on the same board returns the
    same move, leaves the same board and reports the same number of
    nodes. *)
Theorem next_move_is_repeatable BM (EV : Evaluator BM) ordered fuel depth
    (s s1 : state BM) mv :
  next_move BM EV ordered fuel depth s = (Return mv, s1) ->
  exists s2,
    next_move BM EV ordered fuel depth s1 = (Return mv, s2) /\
    board s2 = board s1 /\
    debug_info s2 !! "nodes"%string = debug_info s1 !! "nodes"%string.
Proof.
  rewrite !next_move_unfold. intros H.
  pose proof (minimax_root_restores BM EV ordered _ _ _ _ _ H) as Hb.
  cbn [board] in Hb. rewrite Hb.
  exists s1. split; [exact H|]. split; [exact Hb|reflexivity].
Qed.

Lemma next_move_is_repeatable_witness :
  exists s2,
    next_move tree_model tree_eval tree_ordered 8 7
      (snd (next_move tree_model tree_eval tree_ordered 8 7
              (tree_start WHITE mate_race)))
    = (Return 1%nat, s2) /\
    board s2 =
      board (snd (next_move tree_model tree_eval tree_ordered 8 7
                    (tree_start WHITE mate_race))) /\
    debug_info s2 !! "nodes"%string =
      debug_info (snd (next_move tree_model tree_eval tree_ordered 8 7
                         (tree_start WHITE mate_race))) !! "nodes"%string.
Proof.
  apply (next_move_is_repeatable tree_model tree_eval tree_ordered 8 7
           (tree_start WHITE mate_race)).
  vm_compute. reflexivity.
Defined.
